(** * The 2D localization particle filter (sandbox/localization_2d.py)

    A shallow embedding of [localization_2d_pf], the SIR particle-filter
    step of the 2D localization demo, and of the numpy operations it
    calls.

    Numbers.  A Python float is modelled by the rational it denotes
    ([Q]), and "equal" on numbers is [==] ([Qeq]).  NaN is not
    representable; the one infinity the step can produce itself,
    [1 / 0.0] in the computation of the effective sample size, is
    written out ([PosInf]).  Arithmetic on [Q] is exact, where the code
    rounds every operation to the nearest double.  The one place where
    the rounding decides what the step does is the test of the effective
    sample size against the threshold (lines 81-82).  For it the step is
    also given with the value of line 81 left to the arithmetic that
    evaluates it ([localization_2d_pf_with]), and line 81 is given twice:
    exactly ([Neff]) and as numpy evaluates it on doubles
    ([Neff_binary64], on the binary64 numbers of the kernel).

    Effects.  The step calls functions that draw from the process-wide
    random generator, prints a message when it resamples, and any of its
    callees may raise.  This is modelled by a state-and-exception monad
    [M] over a [world] that holds the tape of random draws and the lines
    printed so far.

    The callees [transition_fcn] and [likelihood_fcn] are arguments of the
    step in the source and are arguments here.  [get_landmarks] and
    [systematic_resample] are imported by the source from modules that are
    not part of this development: the step is parametrised over them, and
    [systematic_resample] is also given a model that follows the design
    document.

    The second part of the file embeds the class [Localization2D] that
    drives the step frame by frame: its constructor, [update] and
    [__call__]. *)

From Stdlib Require Import String.
From Stdlib Require Import QArith Qminmax ZArith List Bool Sorted Lia Lqa.
From Stdlib Require Import Floats.
Import ListNotations.

Open Scope Q_scope.

(** ** Data model *)

(** One row of the particle array: planar position and heading. *)
Record particle : Type := mkParticle { px : Q; py : Q; ptheta : Q }.

(** A landmark is a fixed 2D position. *)
Definition landmark : Type := (Q * Q)%type.

(** Componentwise numeric equality of two state vectors. *)
Definition particle_eq (a b : particle) : Prop :=
  px a == px b /\ py a == py b /\ ptheta a == ptheta b.

(** ** Exceptions, the world and the monad *)

Inductive exn : Type :=
| ZeroDivisionError
| ValueError
| IndexError
| OtherError (name : string).

(** The process-wide state the step can touch: the random generator, seen
    as an infinite tape of uniform draws with a read position, and the
    lines written to standard output (most recent first). *)
Record world : Type := mkWorld
  { tape : nat -> Q;
    cursor : nat;
    stdout : list string }.

Inductive outcome (A : Type) : Type :=
| Returns (a : A) (w : world)
| Raises (e : exn) (w : world).

Arguments Returns {A} a w.
Arguments Raises {A} e w.

Definition M (A : Type) : Type := world -> outcome A.

Definition ret {A} (a : A) : M A := fun w => Returns a w.

Definition bind {A B} (m : M A) (k : A -> M B) : M B :=
  fun w => match m w with
           | Returns a w' => k a w'
           | Raises e w' => Raises e w'
           end.

Definition raise {A} (e : exn) : M A := fun w => Raises e w.

Declare Scope pf_scope.
Delimit Scope pf_scope with pf.
Notation "x <- m ;; k" := (bind m (fun x => k))
  (at level 61, m at next level, right associativity) : pf_scope.
Notation "m ;;; k" := (bind m (fun _ => k))
  (at level 61, right associativity) : pf_scope.

(** [print(s)] *)
Definition print (s : string) : M unit :=
  fun w => Returns tt (mkWorld (tape w) (cursor w) (s :: stdout w)).

(** One draw of the generator, uniform on [0, 1). *)
Definition random_uniform : M Q :=
  fun w => Returns (tape w (cursor w))
                   (mkWorld (tape w) (S (cursor w)) (stdout w)).

(** ** numpy *)

(** [np.sum(v)] *)
Fixpoint np_sum (v : list Q) : Q :=
  match v with
  | [] => 0
  | x :: v' => x + np_sum v'
  end.

(** [a * b], elementwise on two vectors of one length *)
Fixpoint np_multiply (a b : list Q) : list Q :=
  match a, b with
  | x :: a', y :: b' => x * y :: np_multiply a' b'
  | _, _ => []
  end.

(** [v ** 2] *)
Definition np_square (v : list Q) : list Q := map (fun x => x * x) v.

(** One column of [np.multiply(a, wgt).sum(axis=0) / scl]. *)
Definition weighted_column (f : particle -> Q) (a : list particle)
    (wgt : list Q) : Q :=
  np_sum (np_multiply (map f a) wgt) / np_sum wgt.

(** The weighted mean of a particle set, column by column. *)
Definition weighted_mean (a : list particle) (wgt : list Q) : particle :=
  mkParticle (weighted_column px a wgt)
             (weighted_column py a wgt)
             (weighted_column ptheta a wgt).

(** [np.average(a, axis=0, weights=wgt)] for an N x 3 array [a] and a
    vector [wgt]: the length of the weights is checked against the first
    axis, then their sum against zero, then the mean is taken. *)
Definition np_average (a : list particle) (wgt : list Q) : M particle :=
  if negb (Nat.eqb (length wgt) (length a)) then raise ValueError
  else if Qeq_bool (np_sum wgt) 0 then raise ZeroDivisionError
  else ret (weighted_mean a wgt).

(** [a < b] on floats *)
Definition Qlt_bool (a b : Q) : bool := negb (Qle_bool b a).

(** [np.mod(a, b)] on integers: the remainder has the sign of the divisor,
    and a zero divisor gives 0 (with a warning, not an exception). *)
Definition np_mod (a b : Z) : Z :=
  if Z.eqb b 0 then 0%Z else Z.modulo a b.

(** A float that may be the positive infinity. *)
Inductive xfloat : Type :=
| Finite (q : Q)
| PosInf.

(** [1 / s] for a float [s >= 0]: numpy returns [inf] at [s = 0.0]. *)
Definition np_reciprocal (s : Q) : xfloat :=
  if Qeq_bool s 0 then PosInf else Finite (1 / s).

(** [x < t] for an integer threshold [t] *)
Definition xfloat_ltb (x : xfloat) (t : Z) : bool :=
  match x with
  | Finite q => Qlt_bool q (inject_Z t)
  | PosInf => false
  end.

(** [x >= t], the complement of [xfloat_ltb] *)
Definition xfloat_ge (x : xfloat) (t : Z) : Prop :=
  match x with
  | Finite q => inject_Z t <= q
  | PosInf => True
  end.

(** The effective sample size, Arulampalam Eqn. (51):
    [Neff = 1 / np.sum(new_weights ** 2)], in exact arithmetic: the value
    of the expression of line 81 before any rounding. *)
Definition Neff (new_weights : list Q) : xfloat :=
  np_reciprocal (np_sum (np_square new_weights)).

(** ** Line 81 on doubles

    The code evaluates [1 / np.sum(new_weights ** 2)] on binary64
    numbers: [new_weights ** 2] rounds each square, [np.sum] rounds each
    addition, in the order in which numpy adds a contiguous array, and
    the quotient is rounded once more. *)

(** A positive integer as a double: exact below [2^53] and on the powers
    of two. *)
Fixpoint binary64_of_positive (p : positive) : float :=
  match p with
  | xH => 1%float
  | xO p' => (2 * binary64_of_positive p')%float
  | xI p' => (2 * binary64_of_positive p' + 1)%float
  end.

(** The double a rational stands for.  A rational that is the value of a
    double (an integer below [2^53] over a power of two) gives that
    double; any other quotient of two integers below [2^53] gives the
    double nearest to it, as Python's division of the two does. *)
Definition binary64_of_Q (q : Q) : float :=
  match Qnum q with
  | Z0 => 0%float
  | Zpos n => (binary64_of_positive n / binary64_of_positive (Qden q))%float
  | Zneg n =>
      (- (binary64_of_positive n / binary64_of_positive (Qden q)))%float
  end.

(** The value of a double.  Line 81 divides 1 by a sum of squares, which
    is never negative: the quotient is a finite number that is not
    negative, or [inf].  NaN is given as [PosInf]: like [inf], it is below
    no threshold on line 82. *)
Definition xfloat_of_binary64 (x : float) : xfloat :=
  match Prim2SF x with
  | S754_zero _ => Finite 0
  | S754_finite false m e => Finite (inject_Z (Zpos m) * 2 ^ e)
  | S754_finite true m e => Finite (inject_Z (Zneg m) * 2 ^ e)
  | S754_infinity _ => PosInf
  | S754_nan => PosInf
  end.

(** The order in which numpy adds up a contiguous array, for numbers with
    an addition [add] and the initial value [zero]. *)
Section Summation.

Context {A : Type}.
Variable add : A -> A -> A.
Variable zero : A.

(** [res += v[i]] for the entries of [v] in order. *)
Definition add_in_order (res : A) (v : list A) : A := fold_left add v res.

(** [r[j] += v[j]] on the accumulators of the unrolled loop. *)
Fixpoint add_lanes (r v : list A) : list A :=
  match r, v with
  | x :: r', y :: v' => add x y :: add_lanes r' v'
  | _, _ => r
  end.

(** The unrolled loop of numpy's summation: [groups] times, the next
    eight entries are added to the eight accumulators. *)
Fixpoint unrolled (groups : nat) (r v : list A) : list A * list A :=
  match groups with
  | O => (r, v)
  | S g => unrolled g (add_lanes r (firstn 8 v)) (skipn 8 v)
  end.

(** numpy's sum of a block of 8 to 128 numbers: eight accumulators start
    from the first eight entries and take the following full groups of
    eight, are added up in pairs, and the entries left over are added in
    order. *)
Definition block_sum (v : list A) : A :=
  let (r, rest) :=
    unrolled (length v / 8 - 1) (firstn 8 v) (skipn 8 v) in
  let r_ (j : nat) := nth j r zero in
  add_in_order
    (add (add (add (r_ 0%nat) (r_ 1%nat)) (add (r_ 2%nat) (r_ 3%nat)))
         (add (add (r_ 4%nat) (r_ 5%nat)) (add (r_ 6%nat) (r_ 7%nat))))
    rest.

(** numpy's pairwise summation: fewer than eight entries are added in
    order, a block of at most 128 entries goes through the unrolled loop,
    a longer array is split in two parts, the first a multiple of eight
    long.  [fuel] bounds the depth of the splitting; the length of the
    array is enough. *)
Fixpoint pairwise_sum (fuel : nat) (v : list A) : A :=
  let n := length v in
  if (n <? 8)%nat then add_in_order zero v
  else if (n <=? 128)%nat then block_sum v
  else match fuel with
       | O => block_sum v
       | S fuel' =>
           let n2 := (n / 2 - (n / 2) mod 8)%nat in
           add (pairwise_sum fuel' (firstn n2 v))
               (pairwise_sum fuel' (skipn n2 v))
       end.

(** [np.sum(v)]: the pairwise sum is added to the initial value. *)
Definition np_sum_in_order (v : list A) : A :=
  add zero (pairwise_sum (length v) v).

End Summation.

(** [np.sum(v)] on doubles. *)
Definition np_sum_binary64 (v : list float) : float :=
  np_sum_in_order PrimFloat.add 0%float v.

(** [v ** 2] on doubles: each entry times itself. *)
Definition np_square_binary64 (v : list float) : list float :=
  map (fun x => (x * x)%float) v.

(** Line 81 as the code evaluates it:
    [Neff = 1 / np.sum(new_weights ** 2)] on doubles. *)
Definition Neff_binary64 (new_weights : list Q) : xfloat :=
  xfloat_of_binary64
    (1 / np_sum_binary64
           (np_square_binary64 (map binary64_of_Q new_weights)))%float.

(** A double that is 0.0 where the count [k] is 0 and 1.0 where it is 1:
    the squares of the weights of a vector with all its mass on one
    particle stand in this relation to the counts 0 and 1. *)
Definition counts (x : float) (k : nat) : Prop :=
  (k = 0%nat -> x = 0%float) /\ (k = 1%nat -> x = 1%float).

(** The count of a weight: 0 for a zero, 1 for anything else. *)
Definition count_weight (x : Q) : nat :=
  if Z.eqb (Qnum x) 0 then 0%nat else 1%nat.

(** ** The filter step *)

Open Scope pf_scope.

(** The type of [transition_fcn], p(x_{k+1} | x_k), and of
    [likelihood_fcn], p(y_{k+1} | x_{k+1}). *)
Definition transition_t : Type :=
  list particle -> Q -> Q -> Q -> list (list Q) -> M (list particle).
Definition likelihood_t : Type :=
  list particle -> list landmark -> list Q -> M (list Q).

(** The defaults of the signature: [neff_thres = 50], [skip = 100]. *)
Definition default_neff_thres : Z := 50.
Definition default_skip : Z := 100.

Section Filter.

(** Imported by the source from [unicycle_model_2d] and
    [particle_filter]. *)
Variable get_landmarks : M (list landmark).
Variable systematic_resample :
  list particle -> list Q -> M (list particle * list Q).

Definition localization_2d_pf
    (particles : list particle) (weights : list Q) (measurement : list Q)
    (linear_vel angular_vel dt : Q) (process_noise_cov : list (list Q))
    (time_step : Z) (neff_thres : Z) (skip : Z)
    (transition_fcn : transition_t) (likelihood_fcn : likelihood_t)
  : M (list particle * list Q * particle) :=
  (* Prediction step *)
  new_particles <-
    transition_fcn particles linear_vel angular_vel dt process_noise_cov ;;
  (* The mean of the current set of particles *)
  state <- np_average new_particles weights ;;
  (* Update the particle weights via the current measurement *)
  if Z.eqb (np_mod time_step skip) 0 then
    landmarks <- get_landmarks ;;
    new_weights <- likelihood_fcn new_particles landmarks measurement ;;
    if xfloat_ltb (Neff new_weights) neff_thres then
      print "RESAMPLING PARTICLES" ;;;
      resampled <- systematic_resample new_particles new_weights ;;
      ret (fst resampled, snd resampled, state)
    else
      ret (new_particles, new_weights, state)
  else
    (* the current weights get passed through *)
    ret (new_particles, weights, state).

End Filter.

Section FilterArithmetic.

(** Line 81 in the arithmetic that evaluates it: [Neff_of new_weights] is
    the value of [1 / np.sum(new_weights ** 2)]. *)
Variable Neff_of : list Q -> xfloat.

Variable get_landmarks : M (list landmark).
Variable systematic_resample :
  list particle -> list Q -> M (list particle * list Q).

(** [localization_2d_pf] with the value of line 81 taken from [Neff_of]:
    at [Neff] this is the step above, at [Neff_binary64] the branch of
    line 82 is decided by the double the code computes.  What holds for
    every [Neff_of] holds whatever line 81 rounds to. *)
Definition localization_2d_pf_with
    (particles : list particle) (weights : list Q) (measurement : list Q)
    (linear_vel angular_vel dt : Q) (process_noise_cov : list (list Q))
    (time_step : Z) (neff_thres : Z) (skip : Z)
    (transition_fcn : transition_t) (likelihood_fcn : likelihood_t)
  : M (list particle * list Q * particle) :=
  (* Prediction step *)
  new_particles <-
    transition_fcn particles linear_vel angular_vel dt process_noise_cov ;;
  (* The mean of the current set of particles *)
  state <- np_average new_particles weights ;;
  (* Update the particle weights via the current measurement *)
  if Z.eqb (np_mod time_step skip) 0 then
    landmarks <- get_landmarks ;;
    new_weights <- likelihood_fcn new_particles landmarks measurement ;;
    if xfloat_ltb (Neff_of new_weights) neff_thres then
      print "RESAMPLING PARTICLES" ;;;
      resampled <- systematic_resample new_particles new_weights ;;
      ret (fst resampled, snd resampled, state)
    else
      ret (new_particles, new_weights, state)
  else
    (* the current weights get passed through *)
    ret (new_particles, weights, state).

End FilterArithmetic.

(** ** Weight vectors *)

(** A weight vector is valid when its entries are non-negative and sum
    to one. *)
Definition valid_weights (w : list Q) : Prop :=
  Forall (fun x => 0 <= x) w /\ np_sum w == 1.

(** The number of particles as a float. *)
Definition count_of (N : nat) : Q := inject_Z (Z.of_nat N).

(** All entries equal [1/N], [N] the length of the vector. *)
Definition uniform_weights (w : list Q) : Prop :=
  Forall (fun x => x == 1 / count_of (length w)) w.

(** ** Systematic resampling *)

(** Modelled from the spec: the sample points of [systematic_resample]
    (module [particle_filter], not among the sources), design document
    section 4.3: N evenly spaced points [u_j = u0 + j/N], [j = 0..N-1]. *)
Definition positions (u0 : Q) (N : nat) : list Q :=
  map (fun j => u0 + count_of j / count_of N) (seq 0 N).

(** Modelled from the spec: the assignment of points to particles in
    [systematic_resample] (module [particle_filter], not among the
    sources), design document section 4.3: walk the cumulative weight sum
    once and assign each point to the particle whose cumulative-weight
    bracket contains it.  [i] is the index of the
    particle at the head of [ws] and [c] the cumulative weight before it,
    so that its bracket is [c, c + w).  A point is assigned to the
    particle under the walk as soon as it lies below the upper end of the
    bracket; otherwise the walk moves on to the next particle.  The walk
    has no answer ([None]) when a point lies beyond the last bracket. *)
Fixpoint walk (ws : list Q) (i : nat) (c : Q) : list Q -> option (list nat) :=
  fix points (us : list Q) : option (list nat) :=
    match us with
    | [] => Some []
    | u :: us' =>
        match ws with
        | [] => None
        | w :: ws' =>
            if Qlt_bool u (c + w)
            then option_map (cons i) (points us')
            else walk ws' (S i) (c + w) us
        end
    end.

(** Modelled from the spec: the new particle set of
    [systematic_resample], drawn from the old set: [particles[indexes]]. *)
Fixpoint gather (particles : list particle) (indexes : list nat)
  : option (list particle) :=
  match indexes with
  | [] => Some []
  | i :: rest =>
      match nth_error particles i, gather particles rest with
      | Some p, Some ps => Some (p :: ps)
      | _, _ => None
      end
  end.

(** Modelled from the spec: [systematic_resample] of the module
    [particle_filter], which the step imports and which is not among the
    sources.  Design document, section 4.3: draw one uniform random offset
    u0 in [0, 1/N); generate N evenly spaced points u_j = u0 + j/N for
    j = 0..N-1; walk the cumulative weight sum once and assign each u_j to
    the particle whose cumulative-weight bracket contains it; reset the
    weight vector to uniform (1/N each).  The offset is one draw of the
    generator scaled by 1/N.  The document does not say what happens when
    a point lies beyond the last bracket (weights summing to less than
    one): the model raises. *)
Definition systematic_resample (particles : list particle) (weights : list Q)
  : M (list particle * list Q) :=
  let N := length particles in
  r <- random_uniform ;;
  let u0 := r / count_of N in
  match walk weights 0 0 (positions u0 N) with
  | None => raise IndexError
  | Some indexes =>
      match gather particles indexes with
      | None => raise IndexError
      | Some new_particles => ret (new_particles, repeat (1 / count_of N) N)
      end
  end.

(** The cumulative weight before particle [i]. *)
Definition cumulative (ws : list Q) (i : nat) : Q := np_sum (firstn i ws).

(** The point [u] lies in the cumulative-weight bracket of particle [i],
    an interval whose width is the weight of the particle. *)
Definition in_bracket (ws : list Q) (i : nat) (u : Q) : Prop :=
  (i < length ws)%nat /\ cumulative ws i <= u /\ u < cumulative ws (S i).

(** How many of the points [us] lie below [c]. *)
Definition below (c : Q) (us : list Q) : nat :=
  length (filter (fun u => Qlt_bool u c) us).

(** How many copies of particle [i] a list of indexes asks for. *)
Definition copies (indexes : list nat) (i : nat) : nat :=
  count_occ Nat.eq_dec indexes i.

(** The walk started at particle [i] with cumulative weight [c] assigns
    the point [u] to particle [k]. *)
Definition assigned (ws : list Q) (i : nat) (c u : Q) (k : nat) : Prop :=
  exists j, k = (i + j)%nat /\ (j < length ws)%nat /\
            c + np_sum (firstn j ws) <= u /\
            u < c + np_sum (firstn (S j) ws).

(** The test "the point lies in [a, b)". *)
Definition within (a b u : Q) : bool := Qle_bool a u && Qlt_bool u b.

(** ** The chance of a particle at a slot

    The j-th point is [(r + j)/N] for the draw [r], so it lies in the
    bracket of particle [i] exactly when [r] lies between the two bounds
    below.  For a draw that is uniform on [0, 1) the chance of that is
    the length of the part of this interval inside [0, 1). *)
Definition slot_lo (ws : list Q) (N i j : nat) : Q :=
  count_of N * cumulative ws i - count_of j.

Definition slot_hi (ws : list Q) (N i j : nat) : Q :=
  count_of N * cumulative ws (S i) - count_of j.

(** The part of a level [x] that lies in the unit interval. *)
Definition clamp01 (x : Q) : Q := Qmax 0 (Qmin x 1).

(** The length of the interval [lo, hi) inside [0, 1). *)
Definition overlap01 (lo hi : Q) : Q :=
  Qmax 0 (Qmin hi 1 - Qmax lo 0).

Definition slot_chance (ws : list Q) (N i j : nat) : Q :=
  overlap01 (slot_lo ws N i j) (slot_hi ws N i j).

(** The expected number of copies of particle [i]: the chances of the
    [N] slots added up. *)
Definition expected_copies (ws : list Q) (N i : nat) : Q :=
  np_sum (map (slot_chance ws N i) (seq 0 N)).

(** ** Concrete callables and inputs, used to run the step *)

(** A generator whose every draw is [1/2], nothing printed yet. *)
Definition world0 : world := mkWorld (fun _ => 1 # 2) 0 [].

(** A particle on the x axis, heading 0. *)
Definition on_axis (a : Q) : particle := mkParticle a 0 0.

(** A landmark table with two entries. *)
Definition two_landmarks : M (list landmark) := ret [(0, 5); (10, 5)].

(** A transition function that leaves every particle where it is (no
    motion, no noise). *)
Definition stationary : transition_t := fun particles _ _ _ _ => ret particles.

(** A noise-free transition function for particles heading along the x
    axis: [x' = x + v * dt]. *)
Definition drift : transition_t :=
  fun particles linear_vel _ dt _ =>
    ret (map (fun p => mkParticle (px p + linear_vel * dt) (py p) (ptheta p))
             particles).

(** A likelihood function that returns a given weight vector. *)
Definition fixed_likelihood (ws : list Q) : likelihood_t :=
  fun _ _ _ => ret ws.

(** A likelihood function that rejects a measurement whose length is not
    the number of landmarks, and weighs uniformly otherwise. *)
Definition checked_likelihood : likelihood_t :=
  fun particles landmarks measurement =>
    if Nat.eqb (length measurement) (length landmarks)
    then ret (repeat (1 / count_of (length particles)) (length particles))
    else raise ValueError.

(** The process noise of the demo, [diag(0.15, 0.15, 0.1)]. *)
Definition Q_pf : list (list Q) :=
  [[15 # 100; 0; 0]; [0; 15 # 100; 0]; [0; 0; 1 # 10]].

(** Three doubles that are not equal and add up to 1 exactly:
    [6004799503160658 / 2^54] and twice [6004799503160663 / 2^54]. *)
Definition skewed_thirds : list Q :=
  [6004799503160658 # 18014398509481984;
   6004799503160663 # 18014398509481984;
   6004799503160663 # 18014398509481984].

(** The double nearest to 1/6, [6004799503160661 / 2^55]: the value of
    the Python expression [1 / 6]. *)
Definition sixth : Q := 6004799503160661 # 36028797018963968.

(** * The animated demo: class [Localization2D]

    The class keeps the particle sets, the weight vectors and the
    estimated trajectory of all time steps in numpy arrays and fills them
    one row per animation frame.  The figure, its artists and the
    animation object are display state: they are left out, and calls on
    them are taken to succeed; what such a call reads from the arrays is
    kept, because an index out of range raises.  Arrays are values: the
    filter step and the prior are taken not to write into the rows they
    are handed. *)

(** ** Indexing numpy arrays *)

(** The position that the Python index [i] denotes along an axis of
    [len] items: a negative index counts from the end, anything else out
    of range has no position. *)
Definition normalize_index (len : nat) (i : Z) : option nat :=
  if ((0 <=? i) && (i <? Z.of_nat len))%Z then Some (Z.to_nat i)
  else if ((i <? 0) && (- Z.of_nat len <=? i))%Z
       then Some (Z.to_nat (Z.of_nat len + i))
       else None.

(** [a[i]] along the first axis *)
Definition getitem {A} (a : list A) (i : Z) : M A :=
  match normalize_index (length a) i with
  | Some n =>
      match nth_error a n with
      | Some x => ret x
      | None => raise IndexError
      end
  | None => raise IndexError
  end.

Fixpoint replace_nth {A} (n : nat) (x : A) (a : list A) : list A :=
  match a, n with
  | [], _ => []
  | _ :: a', O => x :: a'
  | y :: a', S n' => y :: replace_nth n' x a'
  end.

(** [a[i] = x] along the first axis, for a row [x] of the right shape *)
Definition setitem {A} (a : list A) (i : Z) (x : A) : M (list A) :=
  match normalize_index (length a) i with
  | Some n => ret (replace_nth n x a)
  | None => raise IndexError
  end.

(** The value [v] seen as a row of [N] items by numpy's broadcasting: a
    value of [N] items as it is, a value of one item repeated; any other
    length cannot be broadcast. *)
Definition broadcast_to {A} (v : list A) (N : nat) : option (list A) :=
  if Nat.eqb (length v) N then Some v
  else match v with
       | [x] => Some (repeat x N)
       | _ => None
       end.

(** [a[i] = v] for an array [a] of rows: the index is resolved first, then
    the value is broadcast to the shape of the row. *)
Definition setitem_row {A} (a : list (list A)) (i : Z) (v : list A)
  : M (list (list A)) :=
  match normalize_index (length a) i with
  | Some n =>
      match nth_error a n with
      | Some row =>
          match broadcast_to v (length row) with
          | Some r => ret (replace_nth n r a)
          | None => raise ValueError
          end
      | None => raise IndexError
      end
  | None => raise IndexError
  end.

(** [np.zeros((rows, cols))] with rows made by [zero]: a negative
    dimension is refused. *)
Definition np_zeros {A} (zero : A) (rows cols : Z) : M (list (list A)) :=
  if ((rows <? 0) || (cols <? 0))%Z then raise ValueError
  else ret (repeat (repeat zero (Z.to_nat cols)) (Z.to_nat rows)).

(** ** The object *)

(** The type of [algo]: the filter step as the class calls it, by
    keyword, with the defaults of the step left in place. *)
Definition algo_t : Type :=
  list particle -> list Q -> list Q -> Q -> Q -> Q -> list (list Q) -> Z ->
  M (list particle * list Q * particle).

(** The attributes of a [Localization2D] that the filter reads or
    writes.  A row of [_trajectory] is either still the pair of NaNs it
    was created with ([None]) or a position. *)
Record Localization2D : Type := mkLocalization2D
  { _algo : algo_t;
    _steps : Z;
    _n_particles : Z;
    _linear_vel : list Q;
    _angular_vel : list Q;
    _dt : Q;
    _process_noise_cov : list (list Q);
    _particles : list (list particle);
    _weights : list (list Q);
    _trajectory : list (option (Q * Q));
    _truth : list particle;
    _measurements : list (list Q);
    _landmarks : list landmark;
    _idx : Z;
    _complete : bool }.

Definition with_particles (self : Localization2D) v : Localization2D :=
  mkLocalization2D (_algo self) (_steps self) (_n_particles self)
    (_linear_vel self) (_angular_vel self) (_dt self)
    (_process_noise_cov self) v (_weights self) (_trajectory self)
    (_truth self) (_measurements self) (_landmarks self)
    (_idx self) (_complete self).

Definition with_weights (self : Localization2D) v : Localization2D :=
  mkLocalization2D (_algo self) (_steps self) (_n_particles self)
    (_linear_vel self) (_angular_vel self) (_dt self)
    (_process_noise_cov self) (_particles self) v (_trajectory self)
    (_truth self) (_measurements self) (_landmarks self)
    (_idx self) (_complete self).

Definition with_trajectory (self : Localization2D) v : Localization2D :=
  mkLocalization2D (_algo self) (_steps self) (_n_particles self)
    (_linear_vel self) (_angular_vel self) (_dt self)
    (_process_noise_cov self) (_particles self) (_weights self) v
    (_truth self) (_measurements self) (_landmarks self)
    (_idx self) (_complete self).

Definition with_idx (self : Localization2D) v : Localization2D :=
  mkLocalization2D (_algo self) (_steps self) (_n_particles self)
    (_linear_vel self) (_angular_vel self) (_dt self)
    (_process_noise_cov self) (_particles self) (_weights self)
    (_trajectory self) (_truth self) (_measurements self) (_landmarks self)
    v (_complete self).

Definition with_complete (self : Localization2D) v : Localization2D :=
  mkLocalization2D (_algo self) (_steps self) (_n_particles self)
    (_linear_vel self) (_angular_vel self) (_dt self)
    (_process_noise_cov self) (_particles self) (_weights self)
    (_trajectory self) (_truth self) (_measurements self) (_landmarks self)
    (_idx self) v.

(** ** Methods

    A method runs on the object and the world; when it raises, what it
    had already assigned to the object stays assigned. *)
Inductive completion (A : Type) : Type :=
| Normal (a : A) (self : Localization2D) (w : world)
| Abrupt (e : exn) (self : Localization2D) (w : world).

Arguments Normal {A} a self w.
Arguments Abrupt {A} e self w.

Definition method (A : Type) : Type := Localization2D -> world -> completion A.

Definition mret {A} (a : A) : method A := fun self w => Normal a self w.

Definition mbind {A B} (m : method A) (k : A -> method B) : method B :=
  fun self w =>
    match m self w with
    | Normal a self' w' => k a self' w'
    | Abrupt e self' w' => Abrupt e self' w'
    end.

(** A computation that does not touch the object. *)
Definition lift {A} (m : M A) : method A :=
  fun self w =>
    match m w with
    | Returns a w' => Normal a self w'
    | Raises e w' => Abrupt e self w'
    end.

(** Reading [self], and assigning to its attributes. *)
Definition get_self : method Localization2D :=
  fun self w => Normal self self w.

Definition assign (f : Localization2D -> Localization2D) : method unit :=
  fun self w => Normal tt (f self) w.

Declare Scope obj_scope.
Delimit Scope obj_scope with obj.
Notation "x <- m ;; k" := (mbind m (fun x => k))
  (at level 61, m at next level, right associativity) : obj_scope.
Notation "m ;;; k" := (mbind m (fun _ => k))
  (at level 61, right associativity) : obj_scope.

(** [Localization2D.__init__], without the figure: the arrays are
    allocated, row 0 of the particles is drawn from the prior around the
    first truth state, row 0 of the weights is [1 / n_particles] once per
    particle (the exact quotient here, the double nearest to it in the
    code), the trajectory is all NaN, and the plot limits are taken over
    the truth and the landmarks.  [get_landmarks] is imported by the
    source from [unicycle_model_2d]. *)
Definition __init__ (get_landmarks : M (list landmark))
    (algo : algo_t) (steps n_particles : Z)
    (prior : particle -> Z -> M (list particle)) (truth : list particle)
    (measurements : list (list Q)) (linear_vel angular_vel : list Q)
    (dt : Q) (process_noise_cov : list (list Q)) : M Localization2D :=
  (* Store particle states and weights for plotting *)
  zeros_p <- np_zeros (mkParticle 0 0 0) steps n_particles ;;
  zeros_w <- np_zeros 0 steps n_particles ;;
  (* Use the prior density to create the initial condition *)
  first <- getitem truth 0%Z ;;
  drawn <- prior first n_particles ;;
  particles <- setitem_row zeros_p 0%Z drawn ;;
  share <- (if Z.eqb n_particles 0 then raise ZeroDivisionError
            else ret (1 / inject_Z n_particles)) ;;
  weights <- setitem_row zeros_w 0%Z
               (map (Qmult share) (repeat 1 (Z.to_nat n_particles))) ;;
  (* Store the estimated trajectory *)
  let trajectory := repeat None (Z.to_nat steps) in
  landmarks <- get_landmarks ;;
  (* Set plot attributes: the minimum of an empty column is refused *)
  (match landmarks with
   | [] => raise ValueError
   | _ :: _ => ret tt
   end) ;;;
  ret (mkLocalization2D algo steps n_particles linear_vel angular_vel dt
         process_noise_cov particles weights trajectory truth measurements
         landmarks 0%Z false).

(** [Localization2D.update]: one step of the chosen filtering algorithm
    on the row under the index, stored into the next row, unless the
    posterior is complete; then the index moves on. *)
Definition update : method unit :=
  (self <- get_self ;;
   (if negb (_complete self) then
      particles <- lift (getitem (_particles self) (_idx self)) ;;
      weights <- lift (getitem (_weights self) (_idx self)) ;;
      measurement <- lift (getitem (_measurements self) (_idx self + 1)%Z) ;;
      linear_vel <- lift (getitem (_linear_vel self) (_idx self)) ;;
      angular_vel <- lift (getitem (_angular_vel self) (_idx self)) ;;
      result <- lift (_algo self particles weights measurement
                        linear_vel angular_vel (_dt self)
                        (_process_noise_cov self) (_idx self + 1)%Z) ;;
      let '(new_particles, new_weights, state) := result in
      stored <- lift (setitem_row (_particles self) (_idx self + 1)%Z
                        new_particles) ;;
      assign (fun self => with_particles self stored) ;;;
      stored <- lift (setitem_row (_weights self) (_idx self + 1)%Z
                        new_weights) ;;
      assign (fun self => with_weights self stored) ;;;
      (* Updated the estimated trajectory *)
      stored <- lift (setitem (_trajectory self) (_idx self + 1)%Z
                        (Some (px state, py state))) ;;
      assign (fun self => with_trajectory self stored)
    else mret tt) ;;;
   (* Update the internal index *)
   assign (fun self => with_idx self (_idx self + 1)%Z))%obj.

(** What the artists read from the arrays when they are refreshed: the
    row of particles under the index (and, after an update, the row of
    weights), the first and the last row of the truth. *)
Definition refresh (with_sizes : bool) : method unit :=
  (self <- get_self ;;
   _ <- lift (getitem (_particles self) (_idx self)) ;;
   _ <- (if with_sizes then
           lift (w <- getitem (_weights self) (_idx self) ;; ret tt)%pf
         else mret tt) ;;
   _ <- lift (getitem (_truth self) 0%Z) ;;
   _ <- lift (getitem (_truth self) (-1)%Z) ;;
   mret tt)%obj.

(** [Localization2D.__call__]: frame 0 only draws; any other frame
    updates the posterior, draws, and at the last time step starts over
    from index 0 with the posterior marked complete. *)
Definition __call__ (frame : Z) : method unit :=
  (if Z.eqb frame 0 then refresh false
   else
     update ;;;
     refresh true ;;;
     self <- get_self ;;
     if Z.eqb (_idx self) (_steps self - 1)%Z then
       assign (fun self => with_complete (with_idx self 0%Z) true)
     else mret tt)%obj.

(** The animation: [__call__] on one frame after the other. *)
Fixpoint animate (frames : list Z) : method unit :=
  match frames with
  | [] => mret tt
  | frame :: rest => (__call__ frame ;;; animate rest)%obj
  end.

(** ** What the methods are expected to keep *)

(** The three arrays have [_steps] rows, and every row of particles and
    of weights has [N] entries. *)
Definition shaped (self : Localization2D) (N : nat) : Prop :=
  Z.of_nat (length (_particles self)) = _steps self /\
  Z.of_nat (length (_weights self)) = _steps self /\
  Z.of_nat (length (_trajectory self)) = _steps self /\
  Forall (fun row => length row = N) (_particles self) /\
  Forall (fun row => length row = N) (_weights self).

(** The attributes that are set once, by the constructor. *)
Definition same_inputs (self self' : Localization2D) : Prop :=
  _algo self' = _algo self /\ _steps self' = _steps self /\
  _n_particles self' = _n_particles self /\
  _linear_vel self' = _linear_vel self /\
  _angular_vel self' = _angular_vel self /\ _dt self' = _dt self /\
  _process_noise_cov self' = _process_noise_cov self /\
  _truth self' = _truth self /\ _measurements self' = _measurements self /\
  _landmarks self' = _landmarks self.

(** The posterior computed so far: the three arrays. *)
Definition same_posterior (self self' : Localization2D) : Prop :=
  _particles self' = _particles self /\ _weights self' = _weights self /\
  _trajectory self' = _trajectory self.

(** The rows up to [n] of the three arrays are the same. *)
Definition same_rows_upto (n : nat) (self self' : Localization2D) : Prop :=
  forall j, (j <= n)%nat ->
    nth_error (_particles self') j = nth_error (_particles self) j /\
    nth_error (_weights self') j = nth_error (_weights self) j /\
    nth_error (_trajectory self') j = nth_error (_trajectory self) j.

(** The state between two frames: arrays of the right shape, a truth
    that is not empty, and the index before the last time step. *)
Definition ready (self : Localization2D) (N : nat) : Prop :=
  shaped self N /\ _truth self <> [] /\
  (0 <= _idx self < _steps self - 1)%Z.

(** A method ended normally. *)
Definition is_normal {A} (c : completion A) : Prop :=
  match c with
  | Normal _ _ _ => True
  | Abrupt _ _ _ => False
  end.

(** The call of the filter step as [update] makes it: the rows under the
    index, the measurement of the next time step, the controls under the
    index, and the next time step. *)
Definition step_call (self : Localization2D)
  : M (list particle * list Q * particle) :=
  particles <- getitem (_particles self) (_idx self) ;;
  weights <- getitem (_weights self) (_idx self) ;;
  measurement <- getitem (_measurements self) (_idx self + 1)%Z ;;
  linear_vel <- getitem (_linear_vel self) (_idx self) ;;
  angular_vel <- getitem (_angular_vel self) (_idx self) ;;
  _algo self particles weights measurement linear_vel angular_vel
    (_dt self) (_process_noise_cov self) (_idx self + 1)%Z.

(** Where a method left the object and the world, however it ended. *)
Definition final_self {A} (c : completion A) : Localization2D :=
  match c with
  | Normal _ self _ => self
  | Abrupt _ self _ => self
  end.

Definition final_world {A} (c : completion A) : world :=
  match c with
  | Normal _ _ w => w
  | Abrupt _ _ w => w
  end.

(** ** A concrete demo, used to run the methods *)

(** The filter step with the defaults of its signature, a noise-free
    transition and a likelihood that checks the measurement. *)
Definition demo_algo : algo_t :=
  fun particles weights measurement linear_vel angular_vel dt Q time_step =>
    localization_2d_pf two_landmarks systematic_resample
      particles weights measurement linear_vel angular_vel dt Q time_step
      default_neff_thres default_skip drift checked_likelihood.

(** A filter step that updates at every time step, never resamples, and
    whose likelihood returns three weights whatever the particle set. *)
Definition three_weights_algo : algo_t :=
  fun particles weights measurement linear_vel angular_vel dt Q time_step =>
    localization_2d_pf two_landmarks systematic_resample
      particles weights measurement linear_vel angular_vel dt Q time_step
      0 1 drift (fixed_likelihood [1 # 4; 1 # 4; 1 # 2]).

(** A filter step that always fails. *)
Definition failing_algo : algo_t :=
  fun _ _ _ _ _ _ _ _ => raise (OtherError "step").

(** A prior that puts every particle on the given state. *)
Definition point_prior : particle -> Z -> M (list particle) :=
  fun x0 n => ret (repeat x0 (Z.to_nat n)).

(** A demo of three time steps with two particles, as the constructor
    leaves it. *)
Definition demo_with (algo : algo_t) : Localization2D :=
  mkLocalization2D algo 3 2 [1 # 2; 1 # 2; 1 # 2] [0; 0; 0] (1 # 50) Q_pf
    [[on_axis 0; on_axis 0]; [on_axis 0; on_axis 0]; [on_axis 0; on_axis 0]]
    [[1 # 2; 1 # 2]; [0; 0]; [0; 0]]
    [None; None; None]
    [on_axis 0; on_axis (1 # 100); on_axis (2 # 100)]
    [[5; 11]; [5; 11]; [5; 11]]
    [(0, 5); (10, 5)] 0 false.

(** * Properties of the filter step *)

Section StepFacts.

Variable get_landmarks : M (list landmark).
Variable resample : list particle -> list Q -> M (list particle * list Q).

Variables (particles : list particle) (weights : list Q).
Variables (linear_vel angular_vel dt : Q) (process_noise_cov : list (list Q)).
Variables (neff_thres : Z).
Variables (transition_fcn : transition_t) (likelihood_fcn : likelihood_t).

(** The step with everything but the measurement, the time step and the
    skip interval fixed. *)
Let step (measurement : list Q) (time_step skip : Z) :=
  localization_2d_pf get_landmarks resample particles weights measurement
    linear_vel angular_vel dt process_noise_cov time_step neff_thres skip
    transition_fcn likelihood_fcn.

Let predict := transition_fcn particles linear_vel angular_vel dt process_noise_cov.

(** [np.average] does not touch the world, and tells exactly why it
    fails. *)
Lemma np_average_returns a wgt w :
  length wgt = length a -> ~ np_sum wgt == 0 ->
  np_average a wgt w = Returns (weighted_mean a wgt) w.
Proof.
  intros Hlen Hsum. unfold np_average.
  rewrite Hlen, Nat.eqb_refl. simpl.
  destruct (Qeq_bool (np_sum wgt) 0) eqn:E.
  - apply Qeq_bool_iff in E. contradiction.
  - reflexivity.
Qed.

Lemma np_average_inv a wgt w s w' :
  np_average a wgt w = Returns s w' ->
  length wgt = length a /\ ~ np_sum wgt == 0 /\
  s = weighted_mean a wgt /\ w' = w.
Proof.
  unfold np_average.
  destruct (Nat.eqb_spec (length wgt) (length a)) as [Hlen | Hlen]; simpl.
  - destruct (Qeq_bool (np_sum wgt) 0) eqn:E.
    + discriminate.
    + intros H. inversion H; subst. repeat split; try assumption.
      intros Hz. apply Qeq_bool_iff in Hz. congruence.
  - discriminate.
Qed.

Lemma np_average_zero_sum a wgt w :
  np_sum wgt == 0 ->
  exists e, np_average a wgt w = Raises e w /\
            (length wgt = length a -> e = ZeroDivisionError).
Proof.
  intros Hz. unfold np_average.
  destruct (Nat.eqb_spec (length wgt) (length a)) as [Hlen | Hlen]; simpl.
  - apply Qeq_bool_iff in Hz. rewrite Hz.
    exists ZeroDivisionError. split; [reflexivity | trivial].
  - exists ValueError. split; [reflexivity | intros; contradiction].
Qed.

(** Whatever the step returns, the prediction returned and the weighted
    average was taken of its output with the incoming weights. *)
Lemma step_returns_inv measurement time_step skip w0 ps ws st w1 :
  step measurement time_step skip w0 = Returns (ps, ws, st) w1 ->
  exists predicted wp,
    predict w0 = Returns predicted wp /\
    length weights = length predicted /\ ~ np_sum weights == 0 /\
    st = weighted_mean predicted weights.
Proof.
  unfold step, localization_2d_pf, bind. fold predict.
  destruct (predict w0) as [predicted wp | e wp]; [| discriminate].
  destruct (np_average predicted weights wp) as [s wa | e wa] eqn:Ea;
    [| discriminate].
  apply np_average_inv in Ea. destruct Ea as (Hl & Hs & -> & ->).
  intros H. exists predicted, wp. repeat split; try assumption.
  destruct (Z.eqb (np_mod time_step skip) 0).
  - destruct (get_landmarks wp) as [lms wl | e wl]; [| discriminate].
    destruct (likelihood_fcn predicted lms measurement wl)
      as [nw wn | e wn]; [| discriminate].
    destruct (xfloat_ltb (Neff nw) neff_thres).
    + unfold print in H.
      destruct (resample predicted nw _) as [[rp rw] wr | e wr];
        [| discriminate].
      inversion H; reflexivity.
    + inversion H; reflexivity.
  - inversion H; reflexivity.
Qed.

(** Between updates the step is the prediction followed by the weighted
    average: an exact description of when and what it returns. *)
Lemma step_between_updates measurement time_step skip w0 ps ws st w1 :
  np_mod time_step skip <> 0%Z ->
  step measurement time_step skip w0 = Returns (ps, ws, st) w1 <->
  (predict w0 = Returns ps w1 /\ ws = weights /\
   length weights = length ps /\ ~ np_sum weights == 0 /\
   st = weighted_mean ps weights).
Proof.
  intros Hk. unfold step, localization_2d_pf, bind. fold predict.
  destruct (Z.eqb_spec (np_mod time_step skip) 0) as [E | _];
    [contradiction |].
  split.
  - destruct (predict w0) as [predicted wp | e wp]; [| discriminate].
    destruct (np_average predicted weights wp) as [s wa | e wa] eqn:Ea;
      [| discriminate].
    apply np_average_inv in Ea. destruct Ea as (Hl & Hs & -> & ->).
    unfold ret. intros H. inversion H; subst. auto.
  - intros (Hp & -> & Hl & Hs & ->). rewrite Hp.
    rewrite (np_average_returns _ _ _ Hl Hs). reflexivity.
Qed.

(** Between updates the measurement is not read. *)
Lemma step_ignores_measurement m1 m2 time_step skip w0 :
  np_mod time_step skip <> 0%Z ->
  step m1 time_step skip w0 = step m2 time_step skip w0.
Proof.
  intros Hk. unfold step, localization_2d_pf, bind.
  destruct (Z.eqb_spec (np_mod time_step skip) 0) as [E | _];
    [contradiction | reflexivity].
Qed.

(** A zero weight sum stops the step. *)
Lemma step_zero_sum measurement time_step skip w0 :
  np_sum weights == 0 ->
  exists e w1,
    step measurement time_step skip w0 = Raises e w1 /\
    forall predicted wp,
      predict w0 = Returns predicted wp ->
      length weights = length predicted ->
      e = ZeroDivisionError /\ w1 = wp.
Proof.
  intros Hz. unfold step, localization_2d_pf, bind. fold predict.
  destruct (predict w0) as [predicted wp | e wp].
  - destruct (np_average_zero_sum predicted weights wp Hz) as (e & He & Hd).
    rewrite He. exists e, wp. split; [reflexivity |].
    intros p' w' H Hl. inversion H; subst. auto.
  - exists e, wp. split; [reflexivity | intros; discriminate].
Qed.

End StepFacts.

(** ** Arithmetic of the branch tests *)

Lemma xfloat_ltb_ge x t : xfloat_ltb x t = false <-> xfloat_ge x t.
Proof.
  destruct x as [q |]; simpl; [| tauto].
  unfold Qlt_bool. rewrite negb_false_iff. apply Qle_bool_iff.
Qed.

(** For a non-zero interval [np_mod] vanishes exactly on the multiples. *)
Lemma np_mod_multiple k s :
  s <> 0%Z -> (np_mod k s = 0%Z <-> (s | k)%Z).
Proof.
  intros Hs. unfold np_mod.
  destruct (Z.eqb_spec s 0) as [E | _]; [contradiction |].
  apply Z.mod_divide. assumption.
Qed.

Lemma np_mod_zero_skip k : np_mod k 0 = 0%Z.
Proof. reflexivity. Qed.

Lemma np_mod_opp_skip k s :
  (np_mod k (- s) =? 0)%Z = (np_mod k s =? 0)%Z.
Proof.
  destruct (Z.eq_dec s 0) as [-> | Hs]; [reflexivity |].
  assert (Hs' : (- s)%Z <> 0%Z) by lia.
  destruct (Z.eqb_spec (np_mod k s) 0) as [E | E].
  - apply Z.eqb_eq. apply np_mod_multiple; [assumption |].
    apply Z.divide_opp_l. apply np_mod_multiple in E; assumption.
  - apply Z.eqb_neq. intros E'. apply E.
    apply np_mod_multiple; [assumption |].
    apply np_mod_multiple in E'; [| assumption].
    apply Z.divide_opp_l in E'. rewrite Z.opp_involutive in E'. assumption.
Qed.

(** * The claims about the filter step *)

Section StepClaims.

Variable get_landmarks : M (list landmark).
Variable resample : list particle -> list Q -> M (list particle * list Q).

Variables (particles : list particle) (weights : list Q).
Variables (linear_vel angular_vel dt : Q) (process_noise_cov : list (list Q)).
Variables (neff_thres : Z).
Variables (transition_fcn : transition_t) (likelihood_fcn : likelihood_t).

Let step (measurement : list Q) (time_step skip : Z) :=
  localization_2d_pf get_landmarks resample particles weights measurement
    linear_vel angular_vel dt process_noise_cov time_step neff_thres skip
    transition_fcn likelihood_fcn.

Let predict := transition_fcn particles linear_vel angular_vel dt process_noise_cov.

(** C1, as amended.  The state estimate a step returns is the weighted
    mean of the predicted particle set (the output of the transition
    function, before any resampling) under the incoming weight vector
    (the weights of step k).  On a step that is not an update step the
    predicted set and the incoming weights are also the returned ones,
    so there the estimate is the weighted mean of what the step
    returns. *)
Theorem estimate_is_mean_of_prediction
    measurement time_step skip w0 ps ws st w1 :
  step measurement time_step skip w0 = Returns (ps, ws, st) w1 ->
  exists predicted wp,
    predict w0 = Returns predicted wp /\
    st = weighted_mean predicted weights /\
    (np_mod time_step skip <> 0%Z ->
     ps = predicted /\ ws = weights /\ st = weighted_mean ps ws).
Proof.
  intros H.
  destruct (step_returns_inv _ _ _ _ _ _ _ _ _ _ _ _ _ _ _ _ _ _ _ H)
    as (predicted & wp & Hp & _ & _ & Hst).
  exists predicted, wp. repeat split; try assumption.
  - apply step_between_updates in H; [| assumption].
    destruct H as (Hp' & _). unfold predict in Hp.
    rewrite Hp in Hp'. inversion Hp'. reflexivity.
  - apply step_between_updates in H; tauto.
  - apply step_between_updates in H; [| assumption].
    destruct H as (_ & -> & _ & _ & ->). reflexivity.
Qed.

(** C2, as amended.  With [skip = 100] and a time step that is not a
    multiple of 100, a step that returns hands back the incoming weight
    vector itself, and its particle set is the output of the prediction
    applied to the incoming particles (so it differs from the incoming
    set exactly when the prediction moves a particle). *)
Theorem weights_carried_particles_predicted
    measurement time_step w0 ps ws st w1 :
  (time_step mod 100 <> 0)%Z ->
  step measurement time_step 100 w0 = Returns (ps, ws, st) w1 ->
  ws = weights /\ predict w0 = Returns ps w1.
Proof.
  intros Hk H. apply step_between_updates in H; [tauto | exact Hk].
Qed.

(** C7, as amended.  The step does not validate the measurement.
    Between updates it is never read: every measurement vector, of
    whatever length, gives the same outcome.  On an update step it is
    handed unchanged to the likelihood function, and an exception raised
    there is the outcome of the step (no particle set and no weight
    vector is returned). *)
Theorem measurement_not_validated measurement time_step skip w0 :
  (np_mod time_step skip <> 0%Z ->
   forall other, step other time_step skip w0 =
                 step measurement time_step skip w0) /\
  (np_mod time_step skip = 0%Z ->
   forall predicted w1 landmarks w2 e w3,
     predict w0 = Returns predicted w1 ->
     length weights = length predicted ->
     ~ np_sum weights == 0 ->
     get_landmarks w1 = Returns landmarks w2 ->
     likelihood_fcn predicted landmarks measurement w2 = Raises e w3 ->
     step measurement time_step skip w0 = Raises e w3).
Proof.
  split.
  - intros Hk other. apply step_ignores_measurement. exact Hk.
  - intros Hk predicted w1 landmarks w2 e w3 Hp Hl Hs Hg Hlik.
    unfold step, localization_2d_pf, bind. fold predict.
    rewrite Hp, (np_average_returns _ _ _ Hl Hs), Hk. simpl.
    rewrite Hg, Hlik. reflexivity.
Qed.

(** C8, as amended.  The step does not validate its configuration.
    [skip = 0] is accepted and makes every step an update step (the
    step behaves as with [skip = 1]); a negative [skip] is accepted and
    behaves as its absolute value; the process-noise covariance is
    handed unchanged to the transition function, and only an exception
    raised there rejects it; an empty weight vector (no particles) is
    rejected on every call, by the weighted average when the prediction
    returns an empty set. *)
Theorem configuration_not_validated measurement time_step w0 :
  step measurement time_step 0 w0 = step measurement time_step 1 w0 /\
  (forall skip, (skip < 0)%Z ->
     step measurement time_step skip w0 =
     step measurement time_step (- skip) w0) /\
  (forall skip e w1, predict w0 = Raises e w1 ->
     step measurement time_step skip w0 = Raises e w1) /\
  (forall skip, weights = [] ->
     exists e w1,
       step measurement time_step skip w0 = Raises e w1 /\
       (forall wp, predict w0 = Returns [] wp ->
                   e = ZeroDivisionError /\ w1 = wp)).
Proof.
  split; [| split; [| split]].
  - unfold step, localization_2d_pf.
    replace (np_mod time_step 1) with 0%Z; [reflexivity |].
    unfold np_mod. simpl. symmetry. apply Z.mod_1_r.
  - intros skip _. unfold step, localization_2d_pf.
    rewrite <- (np_mod_opp_skip time_step skip). reflexivity.
  - intros skip e w1 Hp. unfold step, localization_2d_pf, bind.
    fold predict. rewrite Hp. reflexivity.
  - intros skip Hw.
    assert (Hz : np_sum weights == 0) by (rewrite Hw; reflexivity).
    destruct (step_zero_sum get_landmarks resample particles weights
                linear_vel angular_vel dt process_noise_cov neff_thres
                transition_fcn likelihood_fcn measurement time_step skip
                w0 Hz) as (e & w1 & Hr & Hd).
    exists e, w1. split; [exact Hr |].
    intros wp Hp. apply (Hd [] wp Hp). rewrite Hw. reflexivity.
Qed.

(** C9.  On a time step that is not a multiple of skip (the step's own
    test, [np.mod(time_step, skip) != 0]) the outcome of the step does
    not depend on the measurement: with the same particles, weights,
    controls, noise draws and time step, two measurements give the same
    particle set, weight vector and state estimate (and the same failure
    when the step fails). *)
Theorem measurement_irrelevant_between_updates m1 m2 time_step skip w0 :
  np_mod time_step skip <> 0%Z ->
  step m1 time_step skip w0 = step m2 time_step skip w0.
Proof.
  intros Hk. apply step_ignores_measurement. exact Hk.
Qed.

(** C10.  The step requires a weight vector with a non-zero sum: when
    the incoming weights sum to zero it raises and returns no estimate;
    when the prediction returned a particle set of the length of the
    weight vector, the exception is the weighted average's
    [ZeroDivisionError], raised right after the prediction. *)
Theorem zero_weight_sum_fails measurement time_step skip w0 :
  np_sum weights == 0 ->
  exists e w1,
    step measurement time_step skip w0 = Raises e w1 /\
    forall predicted wp,
      predict w0 = Returns predicted wp ->
      length weights = length predicted ->
      e = ZeroDivisionError /\ w1 = wp.
Proof.
  intros Hz. apply step_zero_sum. exact Hz.
Qed.

End StepClaims.

(** * The branch on the effective sample size

    Line 82 compares the double that line 81 computes with the
    threshold.  The two theorems of this section hold for every value
    line 81 may give: they are stated for the step with that value left
    open, and so for the step as the code runs it on doubles. *)

Section UpdateBranch.

Variable Neff_of : list Q -> xfloat.
Variable get_landmarks : M (list landmark).
Variable resample : list particle -> list Q -> M (list particle * list Q).

Variables (particles : list particle) (weights : list Q).
Variables (linear_vel angular_vel dt : Q) (process_noise_cov : list (list Q)).
Variables (neff_thres : Z).
Variables (transition_fcn : transition_t) (likelihood_fcn : likelihood_t).

Let step (measurement : list Q) (time_step skip : Z) :=
  localization_2d_pf_with Neff_of get_landmarks resample particles weights
    measurement linear_vel angular_vel dt process_noise_cov time_step
    neff_thres skip transition_fcn likelihood_fcn.

Let predict := transition_fcn particles linear_vel angular_vel dt process_noise_cov.

(** C5.  On an update step whose likelihood weights have an effective
    sample size, as line 81 computes it, at or above the threshold, the
    step returns the predicted particle set and the likelihood weights as
    they are; the resampler is not called and nothing is printed (the
    world is the one the likelihood function left). *)
Theorem no_resampling_at_or_above_threshold
    measurement time_step skip w0 predicted w1 landmarks w2 new_weights w3 :
  np_mod time_step skip = 0%Z ->
  predict w0 = Returns predicted w1 ->
  length weights = length predicted ->
  ~ np_sum weights == 0 ->
  get_landmarks w1 = Returns landmarks w2 ->
  likelihood_fcn predicted landmarks measurement w2 = Returns new_weights w3 ->
  xfloat_ge (Neff_of new_weights) neff_thres ->
  step measurement time_step skip w0 =
  Returns (predicted, new_weights, weighted_mean predicted weights) w3.
Proof.
  intros Hk Hp Hl Hs Hg Hlik Hge.
  unfold step, localization_2d_pf_with, bind. fold predict.
  rewrite Hp, (np_average_returns _ _ _ Hl Hs), Hk. simpl.
  rewrite Hg, Hlik.
  apply xfloat_ltb_ge in Hge. rewrite Hge. reflexivity.
Qed.

(** X15.  On an update step whose likelihood weights have an effective
    sample size, as line 81 computes it, below the threshold, the step
    announces the resampling, calls the resampler on the predicted
    particles and the likelihood weights, and returns what the resampler
    returns. *)
Theorem step_resamples_below_threshold
    measurement time_step skip w0 predicted w1 landmarks w2 new_weights w3
    rp rw w4 :
  np_mod time_step skip = 0%Z ->
  predict w0 = Returns predicted w1 ->
  length weights = length predicted ->
  ~ np_sum weights == 0 ->
  get_landmarks w1 = Returns landmarks w2 ->
  likelihood_fcn predicted landmarks measurement w2 = Returns new_weights w3 ->
  xfloat_ltb (Neff_of new_weights) neff_thres = true ->
  resample predicted new_weights
    (mkWorld (tape w3) (cursor w3) ("RESAMPLING PARTICLES"%string :: stdout w3))
  = Returns (rp, rw) w4 ->
  step measurement time_step skip w0 =
  Returns (rp, rw, weighted_mean predicted weights) w4.
Proof.
  intros Hk Hp Hl Hs Hg Hlik Hlt Hr.
  unfold step, localization_2d_pf_with, bind. fold predict.
  rewrite Hp, (np_average_returns _ _ _ Hl Hs), Hk. simpl.
  rewrite Hg, Hlik, Hlt. unfold print. rewrite Hr. reflexivity.
Qed.

End UpdateBranch.

(** At the exact [Neff] the step with line 81 left open is
    [localization_2d_pf]. *)
Lemma localization_2d_pf_with_Neff get_landmarks resample :
  localization_2d_pf_with Neff get_landmarks resample =
  localization_2d_pf get_landmarks resample.
Proof. reflexivity. Qed.

(** ** The step claims on concrete calls *)

(** C1 fails as stated: on an update step whose likelihood moves the
    weight to the second particle, the step returns the particles at 0
    and 4 with the weights 1/4 and 3/4, whose weighted mean is at 3, and
    reports the estimate 2, the mean under the incoming weights. *)
Lemma estimate_ignores_update_counterexample :
  exists st,
    localization_2d_pf two_landmarks systematic_resample
      [on_axis 0; on_axis 4] [1 # 2; 1 # 2] [3; 3] (1 # 2) 0 (1 # 50) Q_pf
      100 1 100 stationary (fixed_likelihood [1 # 4; 3 # 4]) world0 =
    Returns ([on_axis 0; on_axis 4], [1 # 4; 3 # 4], st) world0 /\
    px st == 2 /\
    px (weighted_mean [on_axis 0; on_axis 4] [1 # 4; 3 # 4]) == 3 /\
    ~ particle_eq st (weighted_mean [on_axis 0; on_axis 4] [1 # 4; 3 # 4]).
Proof.
  eexists. split; [reflexivity |].
  split; [reflexivity |]. split; [reflexivity |].
  intros (H & _). vm_compute in H. discriminate H.
Qed.

Lemma estimate_is_mean_of_prediction_witness :
  exists predicted wp,
    drift [on_axis 0; on_axis 4] (1 # 2) 0 (1 # 50) Q_pf world0 =
    Returns predicted wp /\
    weighted_mean [on_axis (1 # 100); on_axis (401 # 100)] [1 # 2; 1 # 2] =
    weighted_mean predicted [1 # 2; 1 # 2] /\
    (np_mod 1 100 <> 0%Z ->
     [on_axis (1 # 100); on_axis (401 # 100)] = predicted /\
     [1 # 2; 1 # 2] = [1 # 2; 1 # 2] /\
     weighted_mean [on_axis (1 # 100); on_axis (401 # 100)] [1 # 2; 1 # 2] =
     weighted_mean [on_axis (1 # 100); on_axis (401 # 100)] [1 # 2; 1 # 2]).
Proof.
  apply (estimate_is_mean_of_prediction two_landmarks systematic_resample
           [on_axis 0; on_axis 4] [1 # 2; 1 # 2] (1 # 2) 0 (1 # 50) Q_pf 50
           drift checked_likelihood [3; 3] 1 100 world0
           [on_axis (1 # 100); on_axis (401 # 100)] [1 # 2; 1 # 2]
           (weighted_mean [on_axis (1 # 100); on_axis (401 # 100)]
                          [1 # 2; 1 # 2])
           world0).
  vm_compute. reflexivity.
Defined.

(** C2 fails as stated: with a prediction that moves nothing, a step
    between updates returns the particle set it was given. *)
Lemma stationary_prediction_counterexample :
  (1 mod 100 <> 0)%Z /\
  exists st,
    localization_2d_pf two_landmarks systematic_resample
      [on_axis 0; on_axis 4] [1 # 2; 1 # 2] [3; 3] 0 0 (1 # 50) Q_pf
      1 50 100 stationary checked_likelihood world0 =
    Returns ([on_axis 0; on_axis 4], [1 # 2; 1 # 2], st) world0.
Proof.
  split; [discriminate |]. eexists. reflexivity.
Qed.

Lemma weights_carried_particles_predicted_witness :
  [1 # 2; 1 # 2] = [1 # 2; 1 # 2] /\
  drift [on_axis 0; on_axis 4] (1 # 2) 0 (1 # 50) Q_pf world0 =
  Returns [on_axis (1 # 100); on_axis (401 # 100)] world0.
Proof.
  apply (weights_carried_particles_predicted two_landmarks
           systematic_resample
           [on_axis 0; on_axis 4] [1 # 2; 1 # 2] (1 # 2) 0 (1 # 50) Q_pf 50
           drift checked_likelihood [3; 3] 1 world0
           [on_axis (1 # 100); on_axis (401 # 100)] [1 # 2; 1 # 2]
           (weighted_mean [on_axis (1 # 100); on_axis (401 # 100)]
                          [1 # 2; 1 # 2])
           world0).
  - vm_compute. discriminate.
  - vm_compute. reflexivity.
Defined.

(** The step on doubles, on an update step with the threshold 3 and the
    likelihood weights [skewed_thirds]: line 81 gives exactly 3.0, which
    is not below the threshold. *)
Lemma no_resampling_at_or_above_threshold_witness :
  xfloat_ge (Neff_binary64 skewed_thirds) 3 /\
  localization_2d_pf_with Neff_binary64 two_landmarks systematic_resample
    [on_axis 0; on_axis 4; on_axis 8] [1 # 4; 1 # 4; 1 # 2] [3; 3]
    (1 # 2) 0 (1 # 50) Q_pf
    200 3 100 drift (fixed_likelihood skewed_thirds) world0 =
  Returns ([on_axis (1 # 100); on_axis (401 # 100); on_axis (801 # 100)],
           skewed_thirds,
           weighted_mean
             [on_axis (1 # 100); on_axis (401 # 100); on_axis (801 # 100)]
             [1 # 4; 1 # 4; 1 # 2])
          world0.
Proof.
  assert (Hge : xfloat_ge (Neff_binary64 skewed_thirds) 3).
  { vm_compute. intros H. discriminate H. }
  split; [exact Hge |].
  apply (no_resampling_at_or_above_threshold Neff_binary64 two_landmarks
           systematic_resample
           [on_axis 0; on_axis 4; on_axis 8] [1 # 4; 1 # 4; 1 # 2]
           (1 # 2) 0 (1 # 50) Q_pf 3
           drift (fixed_likelihood skewed_thirds) [3; 3] 200 100 world0
           [on_axis (1 # 100); on_axis (401 # 100); on_axis (801 # 100)]
           world0 [(0, 5); (10, 5)] world0 skewed_thirds world0).
  - reflexivity.
  - vm_compute. reflexivity.
  - reflexivity.
  - intros H. vm_compute in H. discriminate H.
  - reflexivity.
  - reflexivity.
  - exact Hge.
Defined.

(** C7 fails as stated: between updates a measurement of five entries,
    for a table of two landmarks, goes unnoticed and the step returns.
    (The same call on an update step fails, in the likelihood function.) *)
Lemma mismatched_measurement_counterexample :
  (exists st,
     localization_2d_pf two_landmarks systematic_resample
       [on_axis 0; on_axis 4] [1 # 2; 1 # 2] [1; 2; 3; 4; 5]
       (1 # 2) 0 (1 # 50) Q_pf
       1 50 100 drift checked_likelihood world0 =
     Returns ([on_axis (1 # 100); on_axis (401 # 100)], [1 # 2; 1 # 2], st)
             world0) /\
  localization_2d_pf two_landmarks systematic_resample
    [on_axis 0; on_axis 4] [1 # 2; 1 # 2] [1; 2; 3; 4; 5]
    (1 # 2) 0 (1 # 50) Q_pf
    100 50 100 drift checked_likelihood world0 =
  Raises ValueError world0.
Proof.
  split; [eexists |]; vm_compute; reflexivity.
Qed.

Lemma measurement_not_validated_witness :
  (np_mod 1 100 <> 0%Z ->
   forall other,
     localization_2d_pf two_landmarks systematic_resample
       [on_axis 0; on_axis 4] [1 # 2; 1 # 2] other (1 # 2) 0 (1 # 50) Q_pf
       1 50 100 drift checked_likelihood world0 =
     localization_2d_pf two_landmarks systematic_resample
       [on_axis 0; on_axis 4] [1 # 2; 1 # 2] [1; 2; 3; 4; 5]
       (1 # 2) 0 (1 # 50) Q_pf
       1 50 100 drift checked_likelihood world0) /\
  localization_2d_pf two_landmarks systematic_resample
    [on_axis 0; on_axis 4] [1 # 2; 1 # 2] [1; 2; 3; 4; 5]
    (1 # 2) 0 (1 # 50) Q_pf
    100 50 100 drift checked_likelihood world0 =
  Raises ValueError world0.
Proof.
  split.
  - apply (measurement_not_validated two_landmarks systematic_resample
             [on_axis 0; on_axis 4] [1 # 2; 1 # 2] (1 # 2) 0 (1 # 50) Q_pf 50
             drift checked_likelihood [1; 2; 3; 4; 5] 1 100 world0).
  - apply (proj2 (measurement_not_validated two_landmarks systematic_resample
             [on_axis 0; on_axis 4] [1 # 2; 1 # 2] (1 # 2) 0 (1 # 50) Q_pf 50
             drift checked_likelihood [1; 2; 3; 4; 5] 100 100 world0)
             eq_refl
             [on_axis (1 # 100); on_axis (401 # 100)] world0
             [(0, 5); (10, 5)] world0 ValueError world0).
    + vm_compute. reflexivity.
    + reflexivity.
    + intros H. vm_compute in H. discriminate H.
    + reflexivity.
    + reflexivity.
Defined.

(** C8 fails as stated: a call with [skip = 0] and a call with
    [skip = -100] are both served.  The first takes the update branch
    (the likelihood weights come back), the second carries the weights. *)
Lemma invalid_skip_accepted_counterexample :
  (exists st,
     localization_2d_pf two_landmarks systematic_resample
       [on_axis 0; on_axis 4] [1 # 2; 1 # 2] [3; 3] (1 # 2) 0 (1 # 50) Q_pf
       7 1 0 drift (fixed_likelihood [1 # 4; 3 # 4]) world0 =
     Returns ([on_axis (1 # 100); on_axis (401 # 100)], [1 # 4; 3 # 4], st)
             world0) /\
  (exists st,
     localization_2d_pf two_landmarks systematic_resample
       [on_axis 0; on_axis 4] [1 # 2; 1 # 2] [3; 3] (1 # 2) 0 (1 # 50) Q_pf
       7 1 (-100) drift (fixed_likelihood [1 # 4; 3 # 4]) world0 =
     Returns ([on_axis (1 # 100); on_axis (401 # 100)], [1 # 2; 1 # 2], st)
             world0).
Proof.
  split; eexists; vm_compute; reflexivity.
Qed.

Lemma configuration_not_validated_witness :
  localization_2d_pf two_landmarks systematic_resample
    [on_axis 0; on_axis 4] [1 # 2; 1 # 2] [3; 3] (1 # 2) 0 (1 # 50) Q_pf
    7 1 (-100) drift (fixed_likelihood [1 # 4; 3 # 4]) world0 =
  localization_2d_pf two_landmarks systematic_resample
    [on_axis 0; on_axis 4] [1 # 2; 1 # 2] [3; 3] (1 # 2) 0 (1 # 50) Q_pf
    7 1 (- -100) drift (fixed_likelihood [1 # 4; 3 # 4]) world0.
Proof.
  apply (configuration_not_validated two_landmarks systematic_resample
           [on_axis 0; on_axis 4] [1 # 2; 1 # 2] (1 # 2) 0 (1 # 50) Q_pf 1
           drift (fixed_likelihood [1 # 4; 3 # 4]) [3; 3] 7 world0).
  lia.
Defined.

Lemma measurement_irrelevant_between_updates_witness :
  np_mod 101 default_skip <> 0%Z /\
  localization_2d_pf two_landmarks systematic_resample
    [on_axis 0; on_axis 4] [1 # 2; 1 # 2] [3; 3] (1 # 2) 0 (1 # 50) Q_pf
    101 default_neff_thres default_skip drift checked_likelihood world0 =
  localization_2d_pf two_landmarks systematic_resample
    [on_axis 0; on_axis 4] [1 # 2; 1 # 2] [9; 9; 9] (1 # 2) 0 (1 # 50) Q_pf
    101 default_neff_thres default_skip drift checked_likelihood world0.
Proof.
  split.
  - vm_compute. discriminate.
  - apply measurement_irrelevant_between_updates. vm_compute. discriminate.
Defined.

Lemma zero_weight_sum_fails_witness :
  np_sum [0; 0] == 0 /\
  exists e w1,
    localization_2d_pf two_landmarks systematic_resample
      [on_axis 0; on_axis 4] [0; 0] [3; 3] (1 # 2) 0 (1 # 50) Q_pf
      1 50 100 drift checked_likelihood world0 = Raises e w1 /\
    forall predicted wp,
      drift [on_axis 0; on_axis 4] (1 # 2) 0 (1 # 50) Q_pf world0 =
      Returns predicted wp ->
      length [0; 0] = length predicted ->
      e = ZeroDivisionError /\ w1 = wp.
Proof.
  split.
  - reflexivity.
  - apply zero_weight_sum_fails. reflexivity.
Defined.

(** * The effective sample size *)

Lemma count_of_succ n : count_of (S n) == count_of n + 1.
Proof.
  unfold count_of. rewrite Nat2Z.inj_succ. unfold Z.succ.
  rewrite inject_Z_plus. reflexivity.
Qed.

Lemma count_of_nonneg n : 0 <= count_of n.
Proof.
  unfold count_of. change 0 with (inject_Z 0).
  rewrite <- Zle_Qle. lia.
Qed.

Lemma count_of_pos n : (0 < n)%nat -> 0 < count_of n.
Proof.
  intros H. unfold count_of. change 0 with (inject_Z 0).
  rewrite <- Zlt_Qlt. lia.
Qed.

Lemma square_nonneg (a : Q) : 0 <= a * a.
Proof. nra. Qed.

Lemma np_sum_square_nonneg w : 0 <= np_sum (np_square w).
Proof.
  induction w as [| x w IH]; simpl; [lra | nra].
Qed.

(** For non-negative entries the sum of squares is at most the square of
    the sum. *)
Lemma np_sum_square_le w :
  Forall (fun x => 0 <= x) w ->
  0 <= np_sum w /\ np_sum (np_square w) <= np_sum w * np_sum w.
Proof.
  induction 1 as [| x w Hx Hw [IH0 IH]]; simpl; [lra |].
  split; [lra | nra].
Qed.

(** The sum of the squared deviations from a constant [c]. *)
Lemma np_sum_deviation w c :
  np_sum (map (fun x => (x - c) * (x - c)) w) ==
  np_sum (np_square w) - 2 * c * np_sum w + count_of (length w) * c * c.
Proof.
  induction w as [| x w IH].
  - simpl. unfold count_of. simpl. ring.
  - cbn [map np_sum np_square length]. fold (np_square w).
    rewrite IH, count_of_succ. ring.
Qed.

Lemma np_sum_deviation_nonneg w c :
  0 <= np_sum (map (fun x => (x - c) * (x - c)) w).
Proof.
  induction w as [| x w IH]; simpl; [lra |].
  pose proof (square_nonneg (x - c)). lra.
Qed.

(** A sum of squared deviations vanishes exactly when every entry is the
    constant. *)
Lemma np_sum_deviation_zero w c :
  np_sum (map (fun x => (x - c) * (x - c)) w) == 0 <->
  Forall (fun x => x == c) w.
Proof.
  induction w as [| x w IH]; simpl.
  - split; [constructor | reflexivity].
  - pose proof (np_sum_deviation_nonneg w c) as Hn.
    split.
    + intros H. pose proof (square_nonneg (x - c)) as Hq.
      assert (Hx : (x - c) * (x - c) == 0) by lra.
      assert (Hr : np_sum (map (fun x => (x - c) * (x - c)) w) == 0) by lra.
      constructor; [| apply IH; exact Hr].
      apply Qmult_integral in Hx. lra.
    + intros H. inversion H as [| ? ? Hx Hw]; subst.
      apply IH in Hw. rewrite Hw, Hx. lra.
Qed.

Lemma square_le_np_sum_square w i :
  nth i w 0 * nth i w 0 <= np_sum (np_square w).
Proof.
  revert i. induction w as [| x w IH]; intros [| i]; simpl; try lra.
  - pose proof (np_sum_square_nonneg w). lra.
  - pose proof (IH i). nra.
Qed.

Lemma valid_weights_nonempty w : valid_weights w -> (0 < length w)%nat.
Proof.
  intros [_ Hs]. destruct w; simpl in *; [lra | lia].
Qed.

(** The sum of squares of a valid weight vector lies in [1/N, 1], and is
    1/N exactly for the uniform vector. *)
Lemma valid_weights_square_sum w :
  valid_weights w ->
  let s := np_sum (np_square w) in
  let n := count_of (length w) in
  0 < s /\ s <= 1 /\ 1 <= n * s /\ (n * s == 1 <-> uniform_weights w).
Proof.
  intros Hv s n. pose proof (valid_weights_nonempty w Hv) as Hlen.
  destruct Hv as [Hnn Hs].
  pose proof (count_of_pos _ Hlen) as Hn. fold n in Hn.
  destruct (np_sum_square_le w Hnn) as [_ Hle]. fold s in Hle.
  pose proof (np_sum_deviation w (1 / n)) as Hd.
  pose proof (np_sum_deviation_nonneg w (1 / n)) as Hd0.
  pose proof (np_sum_deviation_zero w (1 / n)) as Hu.
  unfold uniform_weights. fold n.
  fold s in Hd. fold n in Hd. rewrite Hs in Hd, Hle.
  assert (Hinv : n * (1 / n) == 1) by (field; lra).
  revert Hd Hd0 Hu Hinv.
  generalize (np_sum (map (fun x => (x - 1 / n) * (x - 1 / n)) w)).
  generalize (1 / n). clearbody s n. clear Hnn Hs Hlen.
  intros c d Hd Hd0 Hu Hinv.
  assert (Hds : n * d == n * s - 1).
  { rewrite Hd.
    transitivity (n * s - 2 * (n * c) + (n * c) * (n * c)); [ring |].
    rewrite Hinv. ring. }
  assert (Hnd : 0 <= n * d) by (apply Qmult_le_0_compat; lra).
  repeat split.
  - destruct (Qlt_le_dec 0 s) as [Hpos | Hneg]; [exact Hpos |].
    assert (H1 : 0 <= n * (- s)) by (apply Qmult_le_0_compat; lra).
    assert (H2 : n * (- s) == - (n * s)) by ring.
    lra.
  - lra.
  - lra.
  - intros H. apply Hu.
    assert (Hz : n * d == 0) by lra.
    apply Qmult_integral in Hz. lra.
  - intros H. apply Hu in H. rewrite H in Hds. lra.
Qed.

(** ** The order of numpy's summation

    On natural numbers, where addition is exact, numpy's summation gives
    the sum of the list. *)
Lemma add_in_order_nat res v :
  add_in_order Nat.add res v = (res + list_sum v)%nat.
Proof.
  unfold add_in_order. revert res.
  induction v as [| x v IH]; intros res; simpl.
  - lia.
  - rewrite IH. lia.
Qed.

Lemma add_lanes_nat r v :
  (length v <= length r)%nat ->
  length (add_lanes Nat.add r v) = length r /\
  list_sum (add_lanes Nat.add r v) = (list_sum r + list_sum v)%nat.
Proof.
  revert v. induction r as [| x r IH]; intros [| y v] Hl; simpl in *;
    try (split; lia).
  destruct (IH v) as [H1 H2]; [lia |]. split; lia.
Qed.

Lemma list_sum_firstn_skipn k (v : list nat) :
  (list_sum (firstn k v) + list_sum (skipn k v))%nat = list_sum v.
Proof.
  rewrite <- list_sum_app, firstn_skipn. reflexivity.
Qed.

Lemma unrolled_nat g r v :
  length r = 8%nat ->
  length (fst (unrolled Nat.add g r v)) = 8%nat /\
  (list_sum (fst (unrolled Nat.add g r v)) +
   list_sum (snd (unrolled Nat.add g r v)))%nat =
  (list_sum r + list_sum v)%nat.
Proof.
  revert r v. induction g as [| g IH]; intros r v Hr; cbn [unrolled].
  - split; [exact Hr | reflexivity].
  - destruct (add_lanes_nat r (firstn 8 v)) as [H1 H2].
    { rewrite length_firstn. lia. }
    destruct (IH (add_lanes Nat.add r (firstn 8 v)) (skipn 8 v)) as [H3 H4];
      [lia |].
    split; [exact H3 |]. rewrite H4, H2.
    pose proof (list_sum_firstn_skipn 8 v). lia.
Qed.

Lemma block_sum_nat v :
  (8 <= length v)%nat -> block_sum Nat.add 0%nat v = list_sum v.
Proof.
  intros Hn. unfold block_sum.
  destruct (unrolled_nat (length v / 8 - 1) (firstn 8 v) (skipn 8 v))
    as [H1 H2].
  { rewrite length_firstn. lia. }
  destruct (unrolled Nat.add (length v / 8 - 1) (firstn 8 v) (skipn 8 v))
    as [r rest].
  simpl in H1, H2. rewrite add_in_order_nat.
  pose proof (list_sum_firstn_skipn 8 v) as Hv.
  do 8 (destruct r as [| ? r]; [discriminate H1 |]).
  destruct r; [| discriminate H1].
  simpl in *. lia.
Qed.

Lemma pairwise_sum_nat fuel v :
  pairwise_sum Nat.add 0%nat fuel v = list_sum v.
Proof.
  revert v. induction fuel as [| fuel IH]; intros v; simpl.
  - destruct (Nat.ltb_spec (length v) 8); [apply add_in_order_nat |].
    destruct (length v <=? 128)%nat; apply block_sum_nat; exact H.
  - destruct (Nat.ltb_spec (length v) 8); [apply add_in_order_nat |].
    destruct (length v <=? 128)%nat; [apply block_sum_nat; exact H |].
    rewrite !IH. apply list_sum_firstn_skipn.
Qed.

Lemma np_sum_in_order_nat v : np_sum_in_order Nat.add 0%nat v = list_sum v.
Proof. unfold np_sum_in_order. rewrite pairwise_sum_nat. reflexivity. Qed.

(** Two additions that respect a relation give related sums on related
    arrays. *)
Section Related.

Context {A B : Type}.
Variables (addA : A -> A -> A) (zeroA : A).
Variables (addB : B -> B -> B) (zeroB : B).
Variable R : A -> B -> Prop.
Hypothesis R_zero : R zeroA zeroB.
Hypothesis R_add : forall x x' y y', R x x' -> R y y' -> R (addA x y) (addB x' y').

Lemma add_in_order_related res res' v v' :
  R res res' -> Forall2 R v v' ->
  R (add_in_order addA res v) (add_in_order addB res' v').
Proof.
  intros Hr Hv. revert res res' Hr.
  induction Hv as [| x x' v v' Hx Hv IH]; intros res res' Hr; simpl.
  - exact Hr.
  - apply IH. apply R_add; assumption.
Qed.

Lemma add_lanes_related r r' v v' :
  Forall2 R r r' -> Forall2 R v v' ->
  Forall2 R (add_lanes addA r v) (add_lanes addB r' v').
Proof.
  intros Hr. revert v v'.
  induction Hr as [| x x' r r' Hx Hr IH]; intros v v' Hv.
  - constructor.
  - destruct Hv as [| y y' v v' Hy Hv]; simpl.
    + constructor; assumption.
    + constructor; [apply R_add; assumption | apply IH; assumption].
Qed.

Lemma Forall2_firstn_skipn k (v : list A) (v' : list B) :
  Forall2 R v v' ->
  Forall2 R (firstn k v) (firstn k v') /\ Forall2 R (skipn k v) (skipn k v').
Proof.
  intros Hv. revert k.
  induction Hv as [| x x' v v' Hx Hv IH]; intros [| k]; simpl;
    try (split; constructor; assumption).
  destruct (IH k) as [H1 H2]. split; [constructor; assumption | exact H2].
Qed.

Lemma unrolled_related g r r' v v' :
  Forall2 R r r' -> Forall2 R v v' ->
  Forall2 R (fst (unrolled addA g r v)) (fst (unrolled addB g r' v')) /\
  Forall2 R (snd (unrolled addA g r v)) (snd (unrolled addB g r' v')).
Proof.
  revert r r' v v'.
  induction g as [| g IH]; intros r r' v v' Hr Hv; cbn [unrolled].
  - split; assumption.
  - destruct (Forall2_firstn_skipn 8 v v' Hv) as [H1 H2].
    apply IH; [apply add_lanes_related; assumption | exact H2].
Qed.

Lemma nth_related j r r' :
  Forall2 R r r' -> R (nth j r zeroA) (nth j r' zeroB).
Proof.
  intros Hr. revert j.
  induction Hr as [| x x' r r' Hx Hr IH]; intros [| j]; simpl; auto.
Qed.

Lemma block_sum_related v v' :
  Forall2 R v v' -> R (block_sum addA zeroA v) (block_sum addB zeroB v').
Proof.
  intros Hv. unfold block_sum.
  rewrite <- (Forall2_length Hv).
  destruct (Forall2_firstn_skipn 8 v v' Hv) as [H1 H2].
  destruct (unrolled_related (length v / 8 - 1) _ _ _ _ H1 H2) as [H3 H4].
  destruct (unrolled addA _ _ _) as [r rest].
  destruct (unrolled addB _ _ _) as [r' rest'].
  simpl in H3, H4.
  apply add_in_order_related; [| exact H4].
  repeat apply R_add; apply nth_related; exact H3.
Qed.

Lemma pairwise_sum_related fuel v v' :
  Forall2 R v v' ->
  R (pairwise_sum addA zeroA fuel v) (pairwise_sum addB zeroB fuel v').
Proof.
  revert v v'. induction fuel as [| fuel IH]; intros v v' Hv; simpl;
    rewrite <- (Forall2_length Hv).
  - destruct (length v <? 8)%nat;
      [apply add_in_order_related; assumption |].
    destruct (length v <=? 128)%nat; apply block_sum_related; exact Hv.
  - destruct (length v <? 8)%nat;
      [apply add_in_order_related; assumption |].
    destruct (length v <=? 128)%nat; [apply block_sum_related; exact Hv |].
    destruct (Forall2_firstn_skipn
                (length v / 2 - (length v / 2) mod 8) v v' Hv) as [H1 H2].
    apply R_add; apply IH; assumption.
Qed.

Lemma np_sum_in_order_related v v' :
  Forall2 R v v' ->
  R (np_sum_in_order addA zeroA v) (np_sum_in_order addB zeroB v').
Proof.
  intros Hv. unfold np_sum_in_order. rewrite <- (Forall2_length Hv).
  apply R_add; [exact R_zero | apply pairwise_sum_related; exact Hv].
Qed.

End Related.

Lemma counts_add x k y l :
  counts x k -> counts y l -> counts (x + y)%float (k + l)%nat.
Proof.
  intros [Hx0 Hx1] [Hy0 Hy1]. split; intros H.
  - rewrite Hx0, Hy0 by lia. reflexivity.
  - destruct k as [| k].
    + rewrite Hx0, Hy1 by lia. reflexivity.
    + rewrite Hx1, Hy0 by lia. reflexivity.
Qed.

Lemma np_sum_app l1 l2 : np_sum (l1 ++ l2) == np_sum l1 + np_sum l2.
Proof.
  induction l1 as [| x l1 IH]; simpl; [lra | rewrite IH; lra].
Qed.

Lemma nonneg_zero_sum w :
  Forall (fun x => 0 <= x) w -> np_sum w == 0 -> Forall (fun x => x == 0) w.
Proof.
  induction 1 as [| x w Hx Hw IH]; intros Hs; [constructor |].
  simpl in Hs. destruct (np_sum_square_le w Hw) as [H0 _].
  constructor; [lra | apply IH; lra].
Qed.

(** A valid weight vector with the weight 1 at one place is zero at all
    other places. *)
Lemma single_mass_shape w i :
  valid_weights w -> nth i w 0 = 1 ->
  exists l1 l2, w = l1 ++ 1 :: l2 /\
                Forall (fun x => x == 0) l1 /\ Forall (fun x => x == 0) l2.
Proof.
  intros [Hnn Hs] Hi.
  assert (Hlt : (i < length w)%nat).
  { destruct (Nat.lt_ge_cases i (length w)) as [H | H]; [exact H |].
    rewrite nth_overflow in Hi by exact H. discriminate Hi. }
  destruct (nth_split w 0 Hlt) as (l1 & l2 & Hw & _).
  rewrite Hi in Hw. exists l1, l2. split; [exact Hw |].
  rewrite Hw in Hnn, Hs. apply Forall_app in Hnn. destruct Hnn as [H1 H2].
  inversion H2 as [| ? ? _ H2']; subst.
  rewrite np_sum_app in Hs. simpl in Hs.
  destruct (np_sum_square_le l1 H1) as [S1 _].
  destruct (np_sum_square_le l2 H2') as [S2 _].
  split; apply nonneg_zero_sum; try assumption; lra.
Qed.

Lemma zero_weights_counted l :
  Forall (fun x => x == 0) l ->
  Forall2 counts (np_square_binary64 (map binary64_of_Q l))
          (map count_weight l) /\
  list_sum (map count_weight l) = 0%nat.
Proof.
  induction 1 as [| x l Hx Hl [IH1 IH2]]; simpl; [split; constructor |].
  assert (Hn : Qnum x = 0%Z).
  { unfold Qeq in Hx. simpl in Hx. lia. }
  assert (Hb : binary64_of_Q x = 0%float)
    by (unfold binary64_of_Q; rewrite Hn; reflexivity).
  assert (Hc : count_weight x = 0%nat)
    by (unfold count_weight; rewrite Hn; reflexivity).
  rewrite Hb, Hc. split; [| exact IH2].
  constructor; [| exact IH1]. split; [reflexivity | discriminate].
Qed.

(** On doubles, a valid weight vector with the weight 1.0 at one place
    has the effective sample size 1.0, whatever its length. *)
Lemma Neff_binary64_single_mass w i :
  valid_weights w -> nth i w 0 = 1 ->
  Neff_binary64 w = xfloat_of_binary64 1%float.
Proof.
  intros Hv Hi.
  destruct (single_mass_shape w i Hv Hi) as (l1 & l2 & -> & H1 & H2).
  destruct (zero_weights_counted l1 H1) as [F1 S1].
  destruct (zero_weights_counted l2 H2) as [F2 S2].
  assert (HF : Forall2 counts
                 (np_square_binary64 (map binary64_of_Q (l1 ++ 1 :: l2)))
                 (map count_weight (l1 ++ 1 :: l2))).
  { unfold np_square_binary64 in *. rewrite !map_app. simpl.
    apply Forall2_app; [exact F1 |].
    constructor; [| exact F2]. split; [discriminate | reflexivity]. }
  assert (HS : list_sum (map count_weight (l1 ++ 1 :: l2)) = 1%nat).
  { rewrite map_app, list_sum_app. simpl. rewrite S1, S2. reflexivity. }
  assert (H0 : counts 0%float 0%nat) by (split; [reflexivity | discriminate]).
  pose proof (np_sum_in_order_related PrimFloat.add 0%float Nat.add 0%nat
                counts H0 counts_add _ _ HF) as Hc.
  rewrite np_sum_in_order_nat, HS in Hc. destruct Hc as [_ Hc].
  unfold Neff_binary64, np_sum_binary64. rewrite (Hc eq_refl). reflexivity.
Qed.




(** * Systematic resampling *)

Lemma Qlt_bool_iff a b : Qlt_bool a b = true <-> a < b.
Proof.
  unfold Qlt_bool. rewrite negb_true_iff. split.
  - intros H. apply Qnot_le_lt. intros Hle.
    apply Qle_bool_iff in Hle. congruence.
  - intros H. destruct (Qle_bool b a) eqn:E; [| reflexivity].
    apply Qle_bool_iff in E. lra.
Qed.

Lemma Qlt_bool_false_iff a b : Qlt_bool a b = false <-> b <= a.
Proof.
  unfold Qlt_bool. rewrite negb_false_iff. apply Qle_bool_iff.
Qed.

Lemma assigned_here w ws i c u :
  c <= u -> u < c + w -> assigned (w :: ws) i c u i.
Proof.
  intros Hl Hu. exists 0%nat. simpl. repeat split; try lia; lra.
Qed.

Lemma assigned_next w ws i c u k :
  assigned ws (S i) (c + w) u k -> assigned (w :: ws) i c u k.
Proof.
  intros (j & -> & Hj & Hl & Hu). exists (S j).
  cbn [firstn np_sum length] in *. repeat split; try lia; lra.
Qed.

(** Ascending points that lie between the start of the walk and the end
    of the last bracket are all assigned, each to a bracket that contains
    it. *)
Lemma walk_assigns ws : forall i c us,
  StronglySorted Qle us ->
  Forall (fun u => c <= u /\ u < c + np_sum ws) us ->
  exists indexes,
    walk ws i c us = Some indexes /\ Forall2 (assigned ws i c) us indexes.
Proof.
  induction ws as [| w ws IHws]; intros i c us Hsort Hin.
  - destruct us as [| u us].
    + exists []. split; [reflexivity | constructor].
    + inversion Hin as [| ? ? [Hl Hu] _]; subst. simpl in Hu. lra.
  - induction us as [| u us IHus].
    + exists []. split; [reflexivity | constructor].
    + inversion Hsort as [| ? ? Hsort' Hle]; subst.
      inversion Hin as [| ? ? [Hl Hu] Hin']; subst.
      cbn [walk]. destruct (Qlt_bool u (c + w)) eqn:E.
      * apply Qlt_bool_iff in E.
        destruct (IHus Hsort' Hin') as (indexes & Hw & Hall).
        exists (i :: indexes). split.
        -- change (option_map (cons i) (walk (w :: ws) i c us)
                   = Some (i :: indexes)).
           rewrite Hw. reflexivity.
        -- constructor; [apply assigned_here; assumption | exact Hall].
      * apply Qlt_bool_false_iff in E.
        destruct (IHws (S i) (c + w) (u :: us) Hsort) as (indexes & Hw & Hall).
        -- constructor.
           ++ cbn [np_sum] in Hu. split; lra.
           ++ rewrite Forall_forall in Hle, Hin'. apply Forall_forall.
              intros v Hv. specialize (Hle v Hv).
              destruct (Hin' v Hv) as [_ Hvu]. cbn [np_sum] in Hvu.
              split; lra.
        -- exists indexes. split; [exact Hw |].
           eapply Forall2_impl; [| exact Hall].
           intros v k. apply assigned_next.
Qed.

Lemma count_of_le i j : (i <= j)%nat -> count_of i <= count_of j.
Proof.
  intros H. unfold count_of. rewrite <- Zle_Qle. lia.
Qed.

Lemma count_of_lt i j : (i < j)%nat -> count_of i + 1 <= count_of j.
Proof.
  intros H. rewrite <- count_of_succ. apply count_of_le. lia.
Qed.

(** An ascending function mapped over a run of integers gives an
    ascending list. *)
Lemma map_seq_sorted (f : nat -> Q) :
  (forall i j, (i <= j)%nat -> f i <= f j) ->
  forall n a, StronglySorted Qle (map f (seq a n)).
Proof.
  intros Hf. induction n as [| n IH]; intros a; simpl; constructor.
  - apply IH.
  - apply Forall_forall. intros v Hv. apply in_map_iff in Hv.
    destruct Hv as (j & <- & Hj). apply in_seq in Hj. apply Hf. lia.
Qed.

Lemma positions_sorted u0 N : StronglySorted Qle (positions u0 N).
Proof.
  unfold positions. apply map_seq_sorted. intros i j Hij.
  pose proof (count_of_le i j Hij) as Hc.
  pose proof (count_of_nonneg N) as HN.
  assert (Hinv : 0 <= / count_of N) by (apply Qinv_le_0_compat; exact HN).
  unfold Qdiv.
  pose proof (Qmult_le_compat_r _ _ (/ count_of N) Hc Hinv). lra.
Qed.

(** With an offset [r/N], [0 <= r < 1], the points lie in [0, 1). *)
Lemma positions_in_unit r N :
  0 <= r -> r < 1 ->
  Forall (fun u => 0 <= u /\ u < 1) (positions (r / count_of N) N).
Proof.
  intros Hr0 Hr1. unfold positions. apply Forall_forall.
  intros u Hu. apply in_map_iff in Hu. destruct Hu as (j & <- & Hj).
  apply in_seq in Hj. destruct Hj as [_ Hj]. simpl in Hj.
  assert (HN : 0 < count_of N) by (apply count_of_pos; lia).
  pose proof (count_of_nonneg j) as Hj0.
  pose proof (count_of_lt j N Hj) as HjN.
  assert (Hsum : r / count_of N + count_of j / count_of N
                 == (r + count_of j) / count_of N) by (field; lra).
  rewrite Hsum. split.
  - apply Qle_shift_div_l; lra.
  - apply Qlt_shift_div_r; lra.
Qed.

Lemma positions_length u0 N : length (positions u0 N) = N.
Proof.
  unfold positions. rewrite length_map, length_seq. reflexivity.
Qed.

(** Indexes within the particle set can all be gathered. *)
Lemma gather_total particles indexes :
  Forall (fun i => (i < length particles)%nat) indexes ->
  exists ps,
    gather particles indexes = Some ps /\
    Forall2 (fun i p => nth_error particles i = Some p) indexes ps.
Proof.
  induction 1 as [| i indexes Hi _ (ps & Hg & Hall)].
  - exists []. split; [reflexivity | constructor].
  - destruct (nth_error particles i) as [p |] eqn:E.
    + exists (p :: ps). split.
      * simpl. rewrite E, Hg. reflexivity.
      * constructor; assumption.
    + apply nth_error_None in E. lia.
Qed.

(** ** Brackets *)

Lemma cumulative_succ ws : forall i,
  (i < length ws)%nat ->
  cumulative ws (S i) == cumulative ws i + nth i ws 0.
Proof.
  unfold cumulative. induction ws as [| w ws IH]; intros i Hi.
  - simpl in Hi. lia.
  - destruct i as [| i].
    + destruct ws; simpl; lra.
    + simpl in Hi. assert (Hi' : (i < length ws)%nat) by lia.
      specialize (IH i Hi'). cbn [firstn np_sum nth] in *. lra.
Qed.

Lemma cumulative_mono ws :
  Forall (fun x => 0 <= x) ws ->
  forall i j, (i <= j)%nat -> cumulative ws i <= cumulative ws j.
Proof.
  unfold cumulative. induction 1 as [| w ws Hw _ IH]; intros i j Hij.
  - rewrite !firstn_nil. lra.
  - destruct i as [| i], j as [| j]; try lia; cbn [firstn np_sum].
    + lra.
    + assert (H0 : np_sum (firstn 0 ws) <= np_sum (firstn j ws))
        by (apply IH; lia).
      simpl in H0. lra.
    + assert (np_sum (firstn i ws) <= np_sum (firstn j ws))
        by (apply IH; lia).
      lra.
Qed.

Lemma cumulative_all ws : cumulative ws (length ws) = np_sum ws.
Proof.
  unfold cumulative. rewrite firstn_all. reflexivity.
Qed.

Lemma cumulative_zero ws : cumulative ws 0 = 0.
Proof. reflexivity. Qed.

(** What the walk from the first particle assigns is a bracket that
    contains the point. *)
Lemma assigned_in_bracket ws u k :
  assigned ws 0 0 u k -> in_bracket ws k u.
Proof.
  intros (j & -> & Hj & Hl & Hu). unfold in_bracket, cumulative.
  simpl Nat.add. repeat split; try assumption; lra.
Qed.

(** Brackets of non-negative weights do not overlap. *)
Lemma in_bracket_unique ws u k k' :
  Forall (fun x => 0 <= x) ws ->
  in_bracket ws k u -> in_bracket ws k' u -> k = k'.
Proof.
  intros Hnn (_ & Hl & Hu) (_ & Hl' & Hu').
  destruct (Nat.lt_trichotomy k k') as [Hlt | [Heq | Hgt]].
  - pose proof (cumulative_mono ws Hnn (S k) k' Hlt). lra.
  - exact Heq.
  - pose proof (cumulative_mono ws Hnn (S k') k Hgt). lra.
Qed.

Lemma within_iff a b u : within a b u = true <-> a <= u /\ u < b.
Proof.
  unfold within. rewrite andb_true_iff, Qle_bool_iff, Qlt_bool_iff.
  tauto.
Qed.

(** The number of copies of particle [k] is the number of points in its
    bracket. *)
Lemma copies_are_points_in_bracket ws k :
  Forall (fun x => 0 <= x) ws -> (k < length ws)%nat ->
  forall us indexes,
    Forall2 (fun u i => in_bracket ws i u) us indexes ->
    copies indexes k =
    length (filter (within (cumulative ws k) (cumulative ws (S k))) us).
Proof.
  intros Hnn Hk. induction 1 as [| u i us indexes Hui _ IH].
  - reflexivity.
  - unfold copies in *. cbn [count_occ filter].
    destruct (Nat.eq_dec i k) as [-> | Hne].
    + destruct Hui as (_ & Hl & Hu).
      assert (E : within (cumulative ws k) (cumulative ws (S k)) u = true)
        by (apply within_iff; split; assumption).
      rewrite E. simpl. rewrite IH. reflexivity.
    + destruct (within (cumulative ws k) (cumulative ws (S k)) u) eqn:E.
      * apply within_iff in E. destruct E as [Hl Hu].
        exfalso. apply Hne.
        apply (in_bracket_unique ws u i k Hnn Hui).
        repeat split; assumption.
      * exact IH.
Qed.

(** Points in [a, b) are the points below [b] that are not below [a]. *)
Lemma below_split a b us :
  a <= b ->
  below b us = (below a us + length (filter (within a b) us))%nat.
Proof.
  intros Hab. unfold below. induction us as [| u us IH]; [reflexivity |].
  cbn [filter].
  destruct (Qlt_bool u b) eqn:Eb, (Qlt_bool u a) eqn:Ea,
           (within a b u) eqn:Ew; cbn [length]; rewrite ?IH; try lia;
    exfalso.
  - apply within_iff in Ew. apply Qlt_bool_iff in Ea. lra.
  - apply Qlt_bool_iff in Eb. apply Qlt_bool_false_iff in Ea.
    assert (Hw : within a b u = true) by (apply within_iff; lra).
    congruence.
  - apply Qlt_bool_iff in Ea. apply Qlt_bool_false_iff in Eb. lra.
  - apply Qlt_bool_iff in Ea. apply Qlt_bool_false_iff in Eb. lra.
  - apply within_iff in Ew. apply Qlt_bool_false_iff in Eb. lra.
Qed.

(** ** Counting the evenly spaced points *)

(** Among the integers [0 .. m-1], the number of those below a bound [x]
    is [m] when [m < x], and otherwise the least integer that is not
    below [x]. *)
Lemma count_integers_below x : forall m,
  - (1) < x ->
  let k := length (filter (fun j => Qlt_bool (count_of j) x) (seq 0 m)) in
  (count_of m < x -> k = m) /\
  (x <= count_of m -> x <= count_of k /\ count_of k < x + 1).
Proof.
  intros m Hx. induction m as [| m [IHlt IHge]].
  - simpl. split; [reflexivity |]. unfold count_of. simpl.
    change (inject_Z 0) with 0. intros H. split; lra.
  - rewrite seq_S, filter_app, length_app. cbn [filter Nat.add].
    pose proof (count_of_succ m) as Hs.
    destruct (Qlt_bool (count_of m) x) eqn:E.
    + apply Qlt_bool_iff in E. specialize (IHlt E). cbn [length].
      rewrite IHlt. replace (m + 1)%nat with (S m) by lia.
      split; [reflexivity |]. intros H. split; lra.
    + apply Qlt_bool_false_iff in E. specialize (IHge E). cbn [length].
      rewrite Nat.add_0_r. split; [intros H; lra | intros _; exact IHge].
Qed.

Lemma filter_map_length {A B} (p : B -> bool) (f : A -> B) l :
  length (filter p (map f l)) = length (filter (fun a => p (f a)) l).
Proof.
  induction l as [| a l IH]; simpl; [reflexivity |].
  destruct (p (f a)); simpl; rewrite IH; reflexivity.
Qed.

Lemma Qlt_bool_ext a b a' b' :
  (a < b <-> a' < b') -> Qlt_bool a b = Qlt_bool a' b'.
Proof.
  intros H. destruct (Qlt_bool a' b') eqn:E.
  - apply Qlt_bool_iff. apply H. apply Qlt_bool_iff. exact E.
  - destruct (Qlt_bool a b) eqn:E'; [| reflexivity].
    apply Qlt_bool_iff in E'. apply H in E'. apply Qlt_bool_iff in E'.
    congruence.
Qed.

(** The number [k] of points [u_j = (r + j)/N] below a level [c] of the
    unit interval is [N c - r], rounded up. *)
Lemma below_positions r N c :
  (0 < N)%nat -> 0 <= r -> r < 1 -> 0 <= c -> c <= 1 ->
  let k := below c (positions (r / count_of N) N) in
  count_of N * c - r <= count_of k /\ count_of k < count_of N * c - r + 1.
Proof.
  intros HN Hr0 Hr1 Hc0 Hc1 k.
  assert (Hd : 0 < count_of N) by (apply count_of_pos; exact HN).
  assert (Hk : k = length (filter
                  (fun j => Qlt_bool (count_of j) (count_of N * c - r))
                  (seq 0 N))).
  { unfold k, below, positions. rewrite filter_map_length.
    f_equal. apply filter_ext. intros j. apply Qlt_bool_ext.
    assert (Hsum : r / count_of N + count_of j / count_of N
                   == (r + count_of j) / count_of N) by (field; lra).
    rewrite Hsum. split; intros H.
    - apply (Qmult_lt_r _ _ (count_of N) Hd) in H.
      assert (Hm : (r + count_of j) / count_of N * count_of N
                   == r + count_of j) by (field; lra).
      rewrite Hm in H. lra.
    - apply Qlt_shift_div_r; [exact Hd | lra]. }
  assert (Hdc0 : 0 <= count_of N * c) by (apply Qmult_le_0_compat; lra).
  assert (Hdc1 : count_of N * c <= count_of N).
  { assert (H1 : 0 <= count_of N * (1 - c))
      by (apply Qmult_le_0_compat; lra).
    assert (H2 : count_of N * (1 - c) == count_of N - count_of N * c)
      by ring.
    lra. }
  assert (Hx : - (1) < count_of N * c - r) by lra.
  destruct (count_integers_below (count_of N * c - r) N Hx) as [_ Hge].
  rewrite <- Hk in Hge. apply Hge. lra.
Qed.

Lemma count_of_add a b : count_of (a + b) == count_of a + count_of b.
Proof.
  unfold count_of. rewrite Nat2Z.inj_add, inject_Z_plus. reflexivity.
Qed.

Lemma np_sum_repeat c n : np_sum (repeat c n) == count_of n * c.
Proof.
  induction n as [| n IH].
  - unfold count_of. simpl. ring.
  - cbn [repeat np_sum]. rewrite IH, count_of_succ. ring.
Qed.

(** The weight vector a resampling returns is uniform, and valid when
    there is at least one particle. *)
Lemma reset_weights_uniform N :
  uniform_weights (repeat (1 / count_of N) N).
Proof.
  unfold uniform_weights. rewrite repeat_length.
  apply Forall_forall. intros x Hx. apply repeat_spec in Hx.
  rewrite Hx. reflexivity.
Qed.

Lemma reset_weights_valid N :
  (0 < N)%nat -> valid_weights (repeat (1 / count_of N) N).
Proof.
  intros HN. pose proof (count_of_pos N HN) as Hd. split.
  - apply Forall_forall. intros x Hx. apply repeat_spec in Hx.
    rewrite Hx. apply Qle_shift_div_l; lra.
  - rewrite np_sum_repeat. field. lra.
Qed.

(** With non-negative weights that sum to one every cumulative weight
    lies in the unit interval. *)
Lemma cumulative_in_unit ws i :
  valid_weights ws -> 0 <= cumulative ws i /\ cumulative ws i <= 1.
Proof.
  intros [Hnn Hs]. split.
  - rewrite <- (cumulative_zero ws). apply cumulative_mono; [exact Hnn | lia].
  - destruct (Nat.le_gt_cases i (length ws)) as [Hi | Hi].
    + rewrite <- Hs, <- cumulative_all.
      apply cumulative_mono; [exact Hnn | exact Hi].
    + unfold cumulative. rewrite firstn_all2 by lia. lra.
Qed.

(** The number of copies of a particle differs from N times its weight
    by less than one. *)
Lemma copies_near_weight ws r indexes i :
  valid_weights ws -> 0 <= r -> r < 1 -> (i < length ws)%nat ->
  Forall2 (fun u k => in_bracket ws k u)
          (positions (r / count_of (length ws)) (length ws)) indexes ->
  count_of (length ws) * nth i ws 0 - 1 < count_of (copies indexes i) /\
  count_of (copies indexes i) < count_of (length ws) * nth i ws 0 + 1.
Proof.
  intros Hv Hr0 Hr1 Hi Hall.
  assert (HN : (0 < length ws)%nat) by lia.
  destruct (cumulative_in_unit ws i Hv) as [Ha0 Ha1].
  destruct (cumulative_in_unit ws (S i) Hv) as [Hb0 Hb1].
  pose proof (cumulative_succ ws i Hi) as Hw.
  pose proof (below_positions r (length ws) _ HN Hr0 Hr1 Ha0 Ha1) as [HA HA'].
  pose proof (below_positions r (length ws) _ HN Hr0 Hr1 Hb0 Hb1) as [HB HB'].
  destruct Hv as [Hnn Hs].
  assert (Hab : cumulative ws i <= cumulative ws (S i))
    by (apply cumulative_mono; [exact Hnn | lia]).
  pose proof (below_split _ _
                (positions (r / count_of (length ws)) (length ws)) Hab)
    as Hsplit.
  rewrite <- (copies_are_points_in_bracket ws i Hnn Hi _ indexes Hall)
    in Hsplit.
  rewrite Hsplit, count_of_add in HB, HB'.
  assert (Hm : count_of (length ws) * cumulative ws (S i) ==
               count_of (length ws) * cumulative ws i
               + count_of (length ws) * nth i ws 0)
    by (rewrite Hw; ring).
  split; lra.
Qed.

(** ** The expected number of copies *)

Lemma clamp01_cases x :
  (x <= 0 /\ clamp01 x == 0) \/
  (0 <= x /\ x <= 1 /\ clamp01 x == x) \/
  (1 <= x /\ clamp01 x == 1).
Proof.
  unfold clamp01.
  destruct (Q.min_spec x 1) as [[H1 E1] | [H1 E1]];
    destruct (Q.max_spec 0 (Qmin x 1)) as [[H2 E2] | [H2 E2]];
    rewrite E2, ?E1; rewrite E1 in H2.
  - right. left. repeat split; lra.
  - left. split; lra.
  - right. right. split; lra.
  - lra.
Qed.

Lemma overlap01_clamp lo hi :
  lo <= hi -> overlap01 lo hi == clamp01 hi - clamp01 lo.
Proof.
  intros Hle. unfold overlap01.
  destruct (clamp01_cases hi) as [[Hh Eh] | [(Hh & Hh' & Eh) | [Hh Eh]]];
    destruct (clamp01_cases lo) as [[Hl El] | [(Hl & Hl' & El) | [Hl El]]];
    rewrite Eh, El;
    destruct (Q.min_spec hi 1) as [[H1 E1] | [H1 E1]];
    destruct (Q.max_spec lo 0) as [[H2 E2] | [H2 E2]];
    rewrite E1, E2;
    match goal with
    | |- Qmax 0 ?d == _ =>
        destruct (Q.max_spec 0 d) as [[H3 E3] | [H3 E3]]; rewrite E3; lra
    end.
Qed.

(** The unit parts of [x], [x - 1], ..., [x - (N-1)] add up to the part of
    [x] inside [0, N]. *)
Lemma clamp01_sum x : forall N,
  0 <= x ->
  let g := np_sum (map (fun j => clamp01 (x - count_of j)) (seq 0 N)) in
  (x <= count_of N -> g == x) /\ (count_of N <= x -> g == count_of N).
Proof.
  intros N Hx. cbv zeta. induction N as [| N [IHle IHge]].
  - simpl. change (count_of 0) with 0. split; intros H; lra.
  - rewrite seq_S, map_app, np_sum_app. cbn [map np_sum Nat.add].
    pose proof (count_of_succ N) as Hs.
    destruct (clamp01_cases (x - count_of N))
      as [[Hc Ec] | [(Hc & Hc' & Ec) | [Hc Ec]]]; rewrite Ec.
    + assert (Hle : x <= count_of N) by lra. specialize (IHle Hle).
      rewrite IHle. split; intros H; lra.
    + assert (Hge : count_of N <= x) by lra. specialize (IHge Hge).
      rewrite IHge. split; intros H; lra.
    + assert (Hge : count_of N <= x) by lra. specialize (IHge Hge).
      rewrite IHge. split; intros H; lra.
Qed.

Lemma np_sum_overlap a b l :
  a <= b ->
  np_sum (map (fun j => overlap01 (a - count_of j) (b - count_of j)) l) ==
  np_sum (map (fun j => clamp01 (b - count_of j)) l)
  - np_sum (map (fun j => clamp01 (a - count_of j)) l).
Proof.
  intros Hab. induction l as [| j l IH]; simpl; [lra |].
  rewrite IH, overlap01_clamp by lra. lra.
Qed.

(** Added over the slots, the chances of a particle come to N times its
    weight. *)
Lemma expected_copies_weight ws i :
  valid_weights ws -> (i < length ws)%nat ->
  expected_copies ws (length ws) i == count_of (length ws) * nth i ws 0.
Proof.
  intros Hv Hi. unfold expected_copies, slot_chance, slot_lo, slot_hi.
  destruct (cumulative_in_unit ws i Hv) as [Ha0 Ha1].
  destruct (cumulative_in_unit ws (S i) Hv) as [Hb0 Hb1].
  pose proof (cumulative_succ ws i Hi) as Hw.
  assert (Hab : cumulative ws i <= cumulative ws (S i))
    by (destruct Hv as [Hnn _]; apply cumulative_mono; [exact Hnn | lia]).
  pose proof (count_of_nonneg (length ws)) as HN.
  set (n := count_of (length ws)) in *.
  assert (Hna0 : 0 <= n * cumulative ws i)
    by (apply Qmult_le_0_compat; lra).
  assert (Hnb0 : 0 <= n * cumulative ws (S i))
    by (apply Qmult_le_0_compat; lra).
  assert (Hna1 : n * cumulative ws i <= n).
  { assert (H1 : 0 <= n * (1 - cumulative ws i))
      by (apply Qmult_le_0_compat; lra).
    assert (H2 : n * (1 - cumulative ws i) == n - n * cumulative ws i)
      by ring.
    lra. }
  assert (Hnb1 : n * cumulative ws (S i) <= n).
  { assert (H1 : 0 <= n * (1 - cumulative ws (S i)))
      by (apply Qmult_le_0_compat; lra).
    assert (H2 : n * (1 - cumulative ws (S i))
                 == n - n * cumulative ws (S i)) by ring.
    lra. }
  assert (Hnab : n * cumulative ws i <= n * cumulative ws (S i)).
  { assert (H1 : 0 <= n * (cumulative ws (S i) - cumulative ws i))
      by (apply Qmult_le_0_compat; lra).
    assert (H2 : n * (cumulative ws (S i) - cumulative ws i)
                 == n * cumulative ws (S i) - n * cumulative ws i) by ring.
    lra. }
  rewrite (np_sum_overlap _ _ _ Hnab).
  destruct (clamp01_sum (n * cumulative ws i) (length ws) Hna0) as [Ea _].
  destruct (clamp01_sum (n * cumulative ws (S i)) (length ws) Hnb0)
    as [Eb _].
  fold n in Ea, Eb. rewrite (Ea Hna1), (Eb Hnb1), Hw. ring.
Qed.

(** The particle at a slot is the one whose bracket contains the point of
    the slot. *)
Lemma index_at_slot ws us indexes :
  Forall (fun x => 0 <= x) ws ->
  Forall2 (fun u i => in_bracket ws i u) us indexes ->
  forall j u i,
    nth_error us j = Some u ->
    (nth_error indexes j = Some i <-> in_bracket ws i u).
Proof.
  intros Hnn. induction 1 as [| v k us indexes Hvk _ IH]; intros j u i Hu.
  - destruct j; discriminate.
  - destruct j as [| j]; simpl in *.
    + inversion Hu; subst. split.
      * intros H. inversion H; subst. exact Hvk.
      * intros H. f_equal. exact (in_bracket_unique ws u k i Hnn Hvk H).
    + apply IH. exact Hu.
Qed.

Lemma positions_nth u0 N j :
  (j < N)%nat ->
  nth_error (positions u0 N) j = Some (u0 + count_of j / count_of N).
Proof.
  intros Hj. unfold positions.
  rewrite nth_error_map, nth_error_seq.
  destruct (Nat.ltb_spec j N); [reflexivity | lia].
Qed.

(** The j-th point lies in the bracket of particle [i] exactly when the
    draw lies between the bounds of the slot. *)
Lemma slot_bounds ws r i j :
  (i < length ws)%nat ->
  in_bracket ws i (r / count_of (length ws)
                   + count_of j / count_of (length ws)) <->
  slot_lo ws (length ws) i j <= r /\ r < slot_hi ws (length ws) i j.
Proof.
  intros Hi. unfold in_bracket, slot_lo, slot_hi.
  assert (Hd : 0 < count_of (length ws)) by (apply count_of_pos; lia).
  set (n := count_of (length ws)) in *.
  assert (Hsum : r / n + count_of j / n == (r + count_of j) / n)
    by (field; lra).
  rewrite Hsum.
  assert (Hm : (r + count_of j) / n * n == r + count_of j) by (field; lra).
  split.
  - intros (_ & Hl & Hu). split.
    + apply (Qmult_le_r _ _ n Hd) in Hl. rewrite Hm in Hl.
      assert (E : cumulative ws i * n == n * cumulative ws i) by ring.
      lra.
    + apply (Qmult_lt_r _ _ n Hd) in Hu. rewrite Hm in Hu.
      assert (E : cumulative ws (S i) * n == n * cumulative ws (S i))
        by ring.
      lra.
  - intros [Hl Hu]. split; [exact Hi |]. split.
    + apply Qle_shift_div_l; [exact Hd |].
      assert (E : cumulative ws i * n == n * cumulative ws i) by ring.
      lra.
    + apply Qlt_shift_div_r; [exact Hd |].
      assert (E : cumulative ws (S i) * n == n * cumulative ws (S i))
        by ring.
      lra.
Qed.

(** C4.  For a particle set of cardinality N, a valid weight vector of
    the same length and an offset draw [r] in [0, 1), [systematic_resample]
    returns, having consumed one draw of the generator.  The new particle
    set has cardinality N and every one of its members is a particle of
    the old set.  Slot j of the new set holds the old particle whose
    cumulative-weight bracket, an interval as wide as its weight, contains
    the point u0 + j/N; that is particle i exactly when the draw lies
    between the two bounds of the slot.  For a uniform draw the chance of
    that is the length of this interval inside [0, 1), and over the N
    slots these chances add up to N times the weight of the particle:
    particles are drawn with probability proportional to their weight.
    For each single draw the number of copies of particle i differs from
    N times its weight by less than one.  The returned weight vector is N
    copies of 1/N: uniform, and valid. *)
Theorem systematic_resample_by_weight particles weights w0 :
  length weights = length particles ->
  valid_weights weights ->
  0 <= tape w0 (cursor w0) -> tape w0 (cursor w0) < 1 ->
  let N := length particles in
  let r := tape w0 (cursor w0) in
  exists indexes new_particles,
    systematic_resample particles weights w0 =
    Returns (new_particles, repeat (1 / count_of N) N)
            (mkWorld (tape w0) (S (cursor w0)) (stdout w0)) /\
    length new_particles = N /\
    Forall2 (fun i p => nth_error particles i = Some p)
            indexes new_particles /\
    Forall (fun p => In p particles) new_particles /\
    Forall2 (fun u i => in_bracket weights i u)
            (positions (r / count_of N) N) indexes /\
    (forall i j, (i < N)%nat -> (j < N)%nat ->
       (nth_error indexes j = Some i <->
        slot_lo weights N i j <= r /\ r < slot_hi weights N i j)) /\
    (forall i, (i < N)%nat ->
       expected_copies weights N i == count_of N * nth i weights 0) /\
    (forall i, (i < N)%nat ->
       count_of N * nth i weights 0 - 1 < count_of (copies indexes i) /\
       count_of (copies indexes i) < count_of N * nth i weights 0 + 1) /\
    uniform_weights (repeat (1 / count_of N) N) /\
    valid_weights (repeat (1 / count_of N) N).
Proof.
  intros Hlen Hv Hr0 Hr1 N r.
  pose proof (valid_weights_nonempty weights Hv) as HN.
  set (u0 := r / count_of N).
  assert (Hin : Forall (fun u => 0 <= u /\ u < 0 + np_sum weights)
                       (positions u0 N)).
  { destruct Hv as [_ Hs].
    eapply Forall_impl; [| exact (positions_in_unit _ N Hr0 Hr1)].
    intros u [Hu0 Hu1]. split; lra. }
  destruct (walk_assigns weights 0 0 (positions u0 N)
              (positions_sorted u0 N) Hin) as (indexes & Hw & Hall).
  assert (Hbr : Forall2 (fun u i => in_bracket weights i u)
                        (positions u0 N) indexes).
  { eapply Forall2_impl; [| exact Hall].
    intros u k. apply assigned_in_bracket. }
  assert (Hidx : Forall (fun i => (i < length particles)%nat) indexes).
  { clear - Hbr Hlen. induction Hbr as [| u i us indexes [Hi _] _ IH];
      constructor; [lia | exact IH]. }
  destruct (gather_total particles indexes Hidx) as (ps & Hg & Hps).
  exists indexes, ps.
  split; [| split; [| split; [| split; [| split;
    [| split; [| split; [| split; [| split]]]]]]]].
  - unfold systematic_resample, bind, random_uniform.
    fold N. fold r. fold u0. rewrite Hw, Hg. reflexivity.
  - rewrite <- (Forall2_length Hps), <- (Forall2_length Hbr).
    apply positions_length.
  - exact Hps.
  - clear - Hps. induction Hps as [| i p indexes ps Hi _ IH];
      constructor; [| exact IH].
    apply nth_error_In in Hi. exact Hi.
  - exact Hbr.
  - intros i j Hi Hj. subst u0 N. rewrite <- Hlen in *.
    rewrite <- slot_bounds by exact Hi.
    apply (index_at_slot weights _ indexes (proj1 Hv) Hbr).
    apply positions_nth. exact Hj.
  - intros i Hi. subst N. rewrite <- Hlen in *.
    apply expected_copies_weight; assumption.
  - intros i Hi. subst u0 N. rewrite <- Hlen in *.
    apply (copies_near_weight weights r indexes i); assumption.
  - apply reset_weights_uniform.
  - apply reset_weights_valid. unfold N. lia.
Qed.

Lemma systematic_resample_witness_weights :
  valid_weights [1 # 10; 7 # 10; 2 # 10].
Proof.
  split; [| reflexivity]. repeat constructor; discriminate.
Defined.

Lemma systematic_resample_by_weight_witness :
  exists indexes new_particles,
    systematic_resample [on_axis 1; on_axis 2; on_axis 3]
                        [1 # 10; 7 # 10; 2 # 10] world0 =
    Returns (new_particles, repeat (1 / count_of 3) 3)
            (mkWorld (tape world0) 1 (stdout world0)) /\
    length new_particles = 3%nat /\
    Forall2 (fun i p =>
               nth_error [on_axis 1; on_axis 2; on_axis 3] i = Some p)
            indexes new_particles /\
    Forall (fun p => In p [on_axis 1; on_axis 2; on_axis 3]) new_particles /\
    Forall2 (fun u i => in_bracket [1 # 10; 7 # 10; 2 # 10] i u)
            (positions ((1 # 2) / count_of 3) 3) indexes /\
    (forall i j, (i < 3)%nat -> (j < 3)%nat ->
       (nth_error indexes j = Some i <->
        slot_lo [1 # 10; 7 # 10; 2 # 10] 3 i j <= 1 # 2 /\
        1 # 2 < slot_hi [1 # 10; 7 # 10; 2 # 10] 3 i j)) /\
    (forall i, (i < 3)%nat ->
       expected_copies [1 # 10; 7 # 10; 2 # 10] 3 i
       == count_of 3 * nth i [1 # 10; 7 # 10; 2 # 10] 0) /\
    (forall i, (i < 3)%nat ->
       count_of 3 * nth i [1 # 10; 7 # 10; 2 # 10] 0 - 1
       < count_of (copies indexes i) /\
       count_of (copies indexes i)
       < count_of 3 * nth i [1 # 10; 7 # 10; 2 # 10] 0 + 1) /\
    uniform_weights (repeat (1 / count_of 3) 3) /\
    valid_weights (repeat (1 / count_of 3) 3).
Proof.
  apply (systematic_resample_by_weight
           [on_axis 1; on_axis 2; on_axis 3] [1 # 10; 7 # 10; 2 # 10] world0).
  - reflexivity.
  - exact systematic_resample_witness_weights.
  - simpl. discriminate.
  - simpl. reflexivity.
Defined.

(** The weights a resampling returns are the uniform ones, whatever the
    offset. *)
Lemma systematic_resample_inv particles weights w0 ps ws w1 :
  systematic_resample particles weights w0 = Returns (ps, ws) w1 ->
  ws = repeat (1 / count_of (length particles)) (length particles).
Proof.
  unfold systematic_resample, bind, random_uniform.
  destruct (walk weights 0 0 _) as [indexes |]; [| discriminate].
  destruct (gather particles indexes) as [new_particles |]; [| discriminate].
  unfold ret. intros H. inversion H. reflexivity.
Qed.

(** C6.  If the incoming weight vector is valid (non-negative entries
    that sum to one) and the likelihood function keeps its contract (it
    returns a valid weight vector with one entry per predicted particle),
    then the
    weight vector a step returns is valid, whether it was carried
    forward, produced by the likelihood function, or reset by the
    resampling. *)
Theorem returned_weights_valid
    get_landmarks particles weights measurement linear_vel angular_vel dt
    process_noise_cov time_step neff_thres skip
    (transition_fcn : transition_t) (likelihood_fcn : likelihood_t)
    w0 ps ws st w1 :
  valid_weights weights ->
  (forall predicted wp landmarks w new_weights w',
     transition_fcn particles linear_vel angular_vel dt process_noise_cov w0 =
     Returns predicted wp ->
     likelihood_fcn predicted landmarks measurement w =
     Returns new_weights w' ->
     valid_weights new_weights /\ length new_weights = length predicted) ->
  localization_2d_pf get_landmarks systematic_resample particles weights
    measurement linear_vel angular_vel dt process_noise_cov
    time_step neff_thres skip transition_fcn likelihood_fcn w0 =
  Returns (ps, ws, st) w1 ->
  valid_weights ws.
Proof.
  intros Hv Hlik. unfold localization_2d_pf, bind.
  destruct (transition_fcn _ _ _ _ _ w0) as [predicted wp | e wp] eqn:Ep;
    [| discriminate].
  destruct (np_average predicted weights wp) as [s wa | e wa];
    [| discriminate].
  destruct (Z.eqb (np_mod time_step skip) 0).
  - destruct (get_landmarks wa) as [landmarks wl | e wl]; [| discriminate].
    destruct (likelihood_fcn predicted landmarks measurement wl)
      as [new_weights wn | e wn] eqn:El; [| discriminate].
    destruct (Hlik _ _ _ _ _ _ eq_refl El) as [Hvn Hln].
    destruct (xfloat_ltb (Neff new_weights) neff_thres).
    + unfold print.
      destruct (systematic_resample predicted new_weights _)
        as [[rp rw] wr | e wr] eqn:Er; [| discriminate].
      apply systematic_resample_inv in Er.
      unfold ret. intros H. inversion H; subst. simpl.
      apply reset_weights_valid. rewrite <- Hln.
      apply valid_weights_nonempty. exact Hvn.
    + unfold ret. intros H. inversion H; subst. exact Hvn.
  - unfold ret. intros H. inversion H; subst. exact Hv.
Qed.

Lemma returned_weights_valid_witness :
  (exists ps st w1,
     localization_2d_pf two_landmarks systematic_resample
       [on_axis 0; on_axis 4] [1 # 2; 1 # 2] [3; 3] (1 # 2) 0 (1 # 50) Q_pf
       100 50 100 drift (fixed_likelihood [1 # 4; 3 # 4]) world0 =
     Returns (ps, [1 # 2; 1 # 2], st) w1) /\
  valid_weights [1 # 2; 1 # 2].
Proof.
  assert (Hstep :
    localization_2d_pf two_landmarks systematic_resample
      [on_axis 0; on_axis 4] [1 # 2; 1 # 2] [3; 3] (1 # 2) 0 (1 # 50) Q_pf
      100 50 100 drift (fixed_likelihood [1 # 4; 3 # 4]) world0 =
    Returns ([on_axis (401 # 100); on_axis (401 # 100)], [1 # 2; 1 # 2],
             weighted_mean [on_axis (1 # 100); on_axis (401 # 100)]
                           [1 # 2; 1 # 2])
            (mkWorld (tape world0) 1 ["RESAMPLING PARTICLES"%string])).
  { vm_compute. reflexivity. }
  split.
  - eexists _, _, _. exact Hstep.
  - apply (returned_weights_valid two_landmarks
             [on_axis 0; on_axis 4] [1 # 2; 1 # 2] [3; 3] (1 # 2) 0 (1 # 50)
             Q_pf 100 50 100 drift (fixed_likelihood [1 # 4; 3 # 4]) world0
             [on_axis (401 # 100); on_axis (401 # 100)] [1 # 2; 1 # 2]
             (weighted_mean [on_axis (1 # 100); on_axis (401 # 100)]
                            [1 # 2; 1 # 2])
             (mkWorld (tape world0) 1 ["RESAMPLING PARTICLES"%string])).
    + split; [| reflexivity]. repeat constructor; discriminate.
    + intros predicted wp landmarks w new_weights w' Hp Hl.
      inversion Hp; subst. inversion Hl; subst.
      split; [| reflexivity].
      split; [| reflexivity]. repeat constructor; discriminate.
    + exact Hstep.
Defined.

(** * The animated demo *)

(** ** Indexing *)

Lemma normalize_index_lt len i n :
  normalize_index len i = Some n -> (n < len)%nat.
Proof.
  unfold normalize_index.
  destruct ((0 <=? i) && (i <? Z.of_nat len))%Z eqn:E1.
  - intros H. inversion H; subst. apply andb_true_iff in E1. lia.
  - destruct ((i <? 0) && (- Z.of_nat len <=? i))%Z eqn:E2; [| discriminate].
    intros H. inversion H; subst. apply andb_true_iff in E2. lia.
Qed.

Lemma normalize_index_in_range len i :
  (0 <= i < Z.of_nat len)%Z -> normalize_index len i = Some (Z.to_nat i).
Proof.
  intros H. unfold normalize_index.
  replace ((0 <=? i) && (i <? Z.of_nat len))%Z with true; [reflexivity |].
  symmetry. apply andb_true_iff. lia.
Qed.

(** An index that is not negative denotes itself. *)
Lemma normalize_index_nonneg len i n :
  (0 <= i)%Z -> normalize_index len i = Some n -> n = Z.to_nat i.
Proof.
  intros Hi. unfold normalize_index.
  destruct ((0 <=? i) && (i <? Z.of_nat len))%Z.
  - intros H. inversion H. reflexivity.
  - replace (i <? 0)%Z with false by lia. discriminate.
Qed.

Lemma getitem_in_range {A} (a : list A) i w :
  (0 <= i < Z.of_nat (length a))%Z ->
  exists x, getitem a i w = Returns x w /\ nth_error a (Z.to_nat i) = Some x.
Proof.
  intros H. unfold getitem. rewrite (normalize_index_in_range _ _ H).
  destruct (nth_error a (Z.to_nat i)) as [x |] eqn:E.
  - exists x. split; reflexivity.
  - apply nth_error_None in E. lia.
Qed.

Lemma getitem_last {A} (a : list A) w :
  a <> [] -> exists x, getitem a (-1)%Z w = Returns x w.
Proof.
  intros Ha. unfold getitem, normalize_index.
  assert (Hlen : (0 < length a)%nat) by (destruct a; [congruence | simpl; lia]).
  replace ((0 <=? -1) && (-1 <? Z.of_nat (length a)))%Z with false
    by reflexivity.
  replace ((-1 <? 0) && (- Z.of_nat (length a) <=? -1))%Z with true
    by (symmetry; apply andb_true_iff; lia).
  destruct (nth_error a (Z.to_nat (Z.of_nat (length a) + -1))) as [x |] eqn:E.
  - exists x. reflexivity.
  - apply nth_error_None in E. lia.
Qed.

(** Reading an array leaves the world alone. *)
Lemma getitem_world {A} (a : list A) i w :
  (exists x, getitem a i w = Returns x w) \/
  getitem a i w = Raises IndexError w.
Proof.
  unfold getitem. destruct (normalize_index (length a) i) as [n |].
  - destruct (nth_error a n) as [x |]; [left; exists x |]; auto.
  - right. reflexivity.
Qed.

Lemma replace_nth_length {A} n (x : A) a :
  length (replace_nth n x a) = length a.
Proof.
  revert n. induction a as [| y a IH]; intros [| n]; simpl; auto.
Qed.

Lemma nth_error_replace_nth_same {A} n (x : A) a :
  (n < length a)%nat -> nth_error (replace_nth n x a) n = Some x.
Proof.
  revert n. induction a as [| y a IH]; intros [| n] H; simpl in *;
    try lia; [reflexivity | apply IH; lia].
Qed.

Lemma nth_error_replace_nth_other {A} n j (x : A) a :
  j <> n -> nth_error (replace_nth n x a) j = nth_error a j.
Proof.
  revert n j. induction a as [| y a IH]; intros [| n] [| j] H; simpl;
    try reflexivity; try congruence.
  apply IH. congruence.
Qed.

Lemma Forall_replace_nth {A} (P : A -> Prop) n x a :
  P x -> Forall P a -> Forall P (replace_nth n x a).
Proof.
  intros Hx Ha. revert n. induction Ha as [| y a Hy Ha IH]; intros [| n];
    simpl; constructor; auto.
Qed.

Lemma broadcast_to_length {A} (v : list A) N r :
  broadcast_to v N = Some r -> length r = N.
Proof.
  unfold broadcast_to. destruct (Nat.eqb_spec (length v) N) as [E | E].
  - intros H. inversion H; subst. reflexivity.
  - destruct v as [| x [| y v]]; try discriminate.
    intros H. inversion H. apply repeat_length.
Qed.

Lemma broadcast_to_exact {A} (v : list A) N r :
  length v = N -> broadcast_to v N = Some r -> r = v.
Proof.
  intros Hl. unfold broadcast_to. rewrite Hl, Nat.eqb_refl.
  intros H. inversion H. reflexivity.
Qed.

Lemma broadcast_to_same {A} (v : list A) :
  broadcast_to v (length v) = Some v.
Proof.
  unfold broadcast_to. rewrite Nat.eqb_refl. reflexivity.
Qed.

(** What a row assignment does when it succeeds, and that it fails only
    on the index or on the shape. *)
Lemma setitem_row_returns {A} (a : list (list A)) i v w a' w' :
  setitem_row a i v w = Returns a' w' ->
  w' = w /\
  exists n row r,
    normalize_index (length a) i = Some n /\ nth_error a n = Some row /\
    broadcast_to v (length row) = Some r /\ a' = replace_nth n r a.
Proof.
  unfold setitem_row.
  destruct (normalize_index (length a) i) as [n |] eqn:En; [| discriminate].
  destruct (nth_error a n) as [row |] eqn:Er; [| discriminate].
  destruct (broadcast_to v (length row)) as [r |] eqn:Eb; [| discriminate].
  intros H. inversion H; subst. split; [reflexivity |].
  exists n, row, r. repeat split; assumption || reflexivity.
Qed.

Lemma setitem_row_raises {A} (a : list (list A)) i v w e w' :
  setitem_row a i v w = Raises e w' -> w' = w.
Proof.
  unfold setitem_row.
  destruct (normalize_index (length a) i) as [n |];
    [| intros H; inversion H; reflexivity].
  destruct (nth_error a n) as [row |];
    [| intros H; inversion H; reflexivity].
  destruct (broadcast_to v (length row)) as [r |]; [discriminate |].
  intros H. inversion H; reflexivity.
Qed.

Lemma setitem_returns {A} (a : list A) i x w a' w' :
  setitem a i x w = Returns a' w' ->
  w' = w /\ exists n, normalize_index (length a) i = Some n /\
                      a' = replace_nth n x a.
Proof.
  unfold setitem.
  destruct (normalize_index (length a) i) as [n |] eqn:En; [| discriminate].
  intros H. inversion H; subst. split; [reflexivity |].
  exists n. split; assumption || reflexivity.
Qed.

Lemma setitem_raises {A} (a : list A) i x w e w' :
  setitem a i x w = Raises e w' -> w' = w.
Proof.
  unfold setitem.
  destruct (normalize_index (length a) i) as [n |]; [discriminate |].
  intros H. inversion H; reflexivity.
Qed.

(** ** [update], case by case *)

Section Update.

Variable self : Localization2D.
Variable w : world.

Let next := (_idx self + 1)%Z.

(** Once the posterior is complete, [update] only moves the index. *)
Lemma update_complete :
  _complete self = true ->
  update self w = Normal tt (with_idx self next) w.
Proof.
  intros Hc. unfold update, mbind, get_self, assign, mret.
  rewrite Hc. reflexivity.
Qed.

(** A failure of the step, or of reading its arguments, ends [update]
    with the object as it was. *)
Lemma update_step_raises e w1 :
  _complete self = false ->
  step_call self w = Raises e w1 ->
  update self w = Abrupt e self w1.
Proof.
  intros Hc. unfold update, step_call, mbind, bind, get_self, lift.
  rewrite Hc. cbn [negb].
  destruct (getitem (_particles self) (_idx self) w) as [p wa | ea wa];
    [| intros H; inversion H; reflexivity].
  destruct (getitem (_weights self) (_idx self) wa) as [wt wb | eb wb];
    [| intros H; inversion H; reflexivity].
  destruct (getitem (_measurements self) (_idx self + 1)%Z wb)
    as [m wc | ec wc]; [| intros H; inversion H; reflexivity].
  destruct (getitem (_linear_vel self) (_idx self) wc) as [v wd | ed wd];
    [| intros H; inversion H; reflexivity].
  destruct (getitem (_angular_vel self) (_idx self) wd) as [om we | ee we];
    [| intros H; inversion H; reflexivity].
  intros H. rewrite H. reflexivity.
Qed.

(** When the step returns, [update] assigns its three results in turn and
    stops at the first assignment that fails. *)
Lemma update_step_returns new_particles new_weights state w1 :
  _complete self = false ->
  step_call self w = Returns (new_particles, new_weights, state) w1 ->
  update self w =
  match setitem_row (_particles self) next new_particles w1 with
  | Raises e w2 => Abrupt e self w2
  | Returns ps w2 =>
      match setitem_row (_weights self) next new_weights w2 with
      | Raises e w3 => Abrupt e (with_particles self ps) w3
      | Returns ws w3 =>
          match setitem (_trajectory self) next
                        (Some (px state, py state)) w3 with
          | Raises e w4 =>
              Abrupt e (with_weights (with_particles self ps) ws) w4
          | Returns tr w4 =>
              Normal tt
                (with_idx
                   (with_trajectory
                      (with_weights (with_particles self ps) ws) tr)
                   next)
                w4
          end
      end
  end.
Proof.
  intros Hc. unfold update, step_call, mbind, bind, get_self, lift, assign.
  rewrite Hc. cbn [negb]. fold next.
  destruct (getitem (_particles self) (_idx self) w) as [p wa | ea wa];
    [| discriminate].
  destruct (getitem (_weights self) (_idx self) wa) as [wt wb | eb wb];
    [| discriminate].
  destruct (getitem (_measurements self) next wb)
    as [m wc | ec wc]; [| discriminate].
  destruct (getitem (_linear_vel self) (_idx self) wc) as [v wd | ed wd];
    [| discriminate].
  destruct (getitem (_angular_vel self) (_idx self) wd) as [om we | ee we];
    [| discriminate].
  intros H. rewrite H.
  destruct (setitem_row (_particles self) next new_particles w1)
    as [ps w2 | e w2]; [| reflexivity].
  destruct (setitem_row (_weights self) next new_weights w2)
    as [ws w3 | e w3]; [| reflexivity].
  destruct (setitem (_trajectory self) next (Some (px state, py state)) w3)
    as [tr w4 | e w4]; reflexivity.
Qed.

End Update.

(** ** What [update] keeps *)

Lemma same_inputs_refl self : same_inputs self self.
Proof. unfold same_inputs. repeat split; reflexivity. Qed.

Lemma same_inputs_trans a b c :
  same_inputs a b -> same_inputs b c -> same_inputs a c.
Proof.
  unfold same_inputs. intros H1 H2.
  decompose [and] H1. decompose [and] H2. repeat split; congruence.
Qed.

Lemma setitem_row_shape {A} (a : list (list A)) i v w a' w' N :
  setitem_row a i v w = Returns a' w' ->
  Forall (fun row => length row = N) a ->
  length a' = length a /\ Forall (fun row => length row = N) a'.
Proof.
  intros H Ha. apply setitem_row_returns in H.
  destruct H as (_ & n & row & r & Hn & Hrow & Hb & ->).
  split; [apply replace_nth_length |].
  apply Forall_replace_nth; [| exact Ha].
  apply broadcast_to_length in Hb. rewrite Hb.
  rewrite Forall_forall in Ha. apply Ha.
  apply nth_error_In in Hrow. exact Hrow.
Qed.

Lemma setitem_row_other {A} (a : list (list A)) i v w a' w' j :
  (0 <= i)%Z -> j <> Z.to_nat i ->
  setitem_row a i v w = Returns a' w' ->
  nth_error a' j = nth_error a j.
Proof.
  intros Hi Hj H. apply setitem_row_returns in H.
  destruct H as (_ & n & row & r & Hn & _ & _ & ->).
  apply normalize_index_nonneg in Hn; [| exact Hi]. subst n.
  apply nth_error_replace_nth_other. exact Hj.
Qed.

Lemma setitem_other {A} (a : list A) i x w a' w' j :
  (0 <= i)%Z -> j <> Z.to_nat i ->
  setitem a i x w = Returns a' w' ->
  nth_error a' j = nth_error a j.
Proof.
  intros Hi Hj H. apply setitem_returns in H.
  destruct H as (_ & n & Hn & ->).
  apply normalize_index_nonneg in Hn; [| exact Hi]. subst n.
  apply nth_error_replace_nth_other. exact Hj.
Qed.

Ltac solve_inputs := unfold same_inputs; simpl; repeat split; reflexivity.
Ltac solve_rows := intros ? ?; simpl; repeat split; reflexivity.

(** A summary of every way [update] can end. *)
Lemma update_summary self w N :
  let c := update self w in
  let self' := final_self c in
  same_inputs self self' /\
  _complete self' = _complete self /\
  (shaped self N -> shaped self' N) /\
  ((0 <= _idx self)%Z ->
   same_rows_upto (Z.to_nat (_idx self)) self self') /\
  match c with
  | Normal _ _ _ => _idx self' = (_idx self + 1)%Z
  | Abrupt _ _ _ =>
      _idx self' = _idx self /\ _trajectory self' = _trajectory self
  end.
Proof.
  intros c self'. subst c self'.
  destruct (_complete self) eqn:Hc.
  - rewrite (update_complete self w Hc). simpl.
    split; [solve_inputs |]. split; [exact Hc |].
    split; [intros H; exact H |]. split; [intros _; solve_rows |].
    reflexivity.
  - destruct (step_call self w) as [[[np nw] st] w1 | e w1] eqn:Hs.
    + rewrite (update_step_returns self w np nw st w1 Hc Hs).
      destruct (setitem_row (_particles self) (_idx self + 1) np w1)
        as [ps w2 | e w2] eqn:Ep.
      2:{ simpl. split; [solve_inputs |]. split; [exact Hc |].
          split; [intros H; exact H |]. split; [intros _; solve_rows |].
          split; reflexivity. }
      destruct (setitem_row (_weights self) (_idx self + 1) nw w2)
        as [ws w3 | e w3] eqn:Ew.
      2:{ simpl. split; [solve_inputs |]. split; [exact Hc |].
          split; [| split; [| split; reflexivity]].
          - intros (H1 & H2 & H3 & H4 & H5).
            destruct (setitem_row_shape _ _ _ _ _ _ N Ep H4) as [L1 F1].
            unfold shaped. simpl. rewrite L1. auto.
          - intros Hi j Hj. simpl. repeat split; try reflexivity.
            apply (setitem_row_other _ _ _ _ _ _ j) in Ep;
              [exact Ep | lia | lia]. }
      destruct (setitem (_trajectory self) (_idx self + 1)
                        (Some (px st, py st)) w3) as [tr w4 | e w4] eqn:Et.
      * simpl. split; [solve_inputs |]. split; [exact Hc |].
        split; [| split; [| reflexivity]].
        -- intros (H1 & H2 & H3 & H4 & H5).
           destruct (setitem_row_shape _ _ _ _ _ _ N Ep H4) as [L1 F1].
           destruct (setitem_row_shape _ _ _ _ _ _ N Ew H5) as [L2 F2].
           apply setitem_returns in Et. destruct Et as (_ & n & _ & ->).
           unfold shaped. simpl.
           rewrite L1, L2, replace_nth_length. auto.
        -- intros Hi j Hj. simpl. repeat split.
           ++ apply (setitem_row_other _ _ _ _ _ _ j) in Ep;
                [exact Ep | lia | lia].
           ++ apply (setitem_row_other _ _ _ _ _ _ j) in Ew;
                [exact Ew | lia | lia].
           ++ apply (setitem_other _ _ _ _ _ _ j) in Et;
                [exact Et | lia | lia].
      * simpl. split; [solve_inputs |]. split; [exact Hc |].
        split; [| split; [| split; reflexivity]].
        -- intros (H1 & H2 & H3 & H4 & H5).
           destruct (setitem_row_shape _ _ _ _ _ _ N Ep H4) as [L1 F1].
           destruct (setitem_row_shape _ _ _ _ _ _ N Ew H5) as [L2 F2].
           unfold shaped. simpl. rewrite L1, L2. auto.
        -- intros Hi j Hj. simpl. repeat split; try reflexivity.
           ++ apply (setitem_row_other _ _ _ _ _ _ j) in Ep;
                [exact Ep | lia | lia].
           ++ apply (setitem_row_other _ _ _ _ _ _ j) in Ew;
                [exact Ew | lia | lia].
    + rewrite (update_step_raises self w e w1 Hc Hs). simpl.
      split; [solve_inputs |]. split; [exact Hc |].
      split; [intros H; exact H |]. split; [intros _; solve_rows |].
      split; reflexivity.
Qed.

(** ** [__call__], case by case *)

(** Refreshing the artists changes neither the object nor the world; it
    fails only on an index out of range. *)
Lemma refresh_cases with_sizes self w :
  refresh with_sizes self w = Normal tt self w \/
  refresh with_sizes self w = Abrupt IndexError self w.
Proof.
  unfold refresh, mbind, get_self, lift, mret, bind, ret.
  destruct (getitem_world (_particles self) (_idx self) w) as [[x Hx] | Hx];
    rewrite Hx; [| right; reflexivity].
  destruct (getitem_world (_truth self) 0%Z w) as [[t0 H0] | H0];
    destruct (getitem_world (_truth self) (-1)%Z w) as [[t1 H1] | H1];
    destruct with_sizes;
    try (destruct (getitem_world (_weights self) (_idx self) w)
           as [[x' Hx'] | Hx']; rewrite Hx');
    rewrite ?H0, ?H1; auto.
Qed.

(** With the index inside the arrays and a truth that is not empty,
    refreshing succeeds. *)
Lemma refresh_succeeds with_sizes self w :
  (0 <= _idx self < Z.of_nat (length (_particles self)))%Z ->
  (_idx self < Z.of_nat (length (_weights self)))%Z ->
  _truth self <> [] ->
  refresh with_sizes self w = Normal tt self w.
Proof.
  intros Hp Hw Ht.
  unfold refresh, mbind, get_self, lift, mret, bind, ret.
  destruct (getitem_in_range (_particles self) (_idx self) w Hp)
    as (x & -> & _).
  assert (Hw' : (0 <= _idx self < Z.of_nat (length (_weights self)))%Z)
    by lia.
  destruct (getitem_in_range (_weights self) (_idx self) w Hw')
    as (x' & Ex & _).
  assert (Ht0 : (0 <= 0 < Z.of_nat (length (_truth self)))%Z).
  { destruct (_truth self); [congruence | simpl; lia]. }
  destruct (getitem_in_range (_truth self) 0%Z w Ht0) as (t0 & E0 & _).
  destruct (getitem_last (_truth self) w Ht) as (t1 & E1).
  destruct with_sizes; rewrite ?Ex, E0, E1; reflexivity.
Qed.

Lemma call_frame_zero self w : __call__ 0 self w = refresh false self w.
Proof. reflexivity. Qed.

Lemma call_other_frame frame self w :
  frame <> 0%Z ->
  __call__ frame self w =
  match update self w with
  | Abrupt e s w1 => Abrupt e s w1
  | Normal _ s w1 =>
      match refresh true s w1 with
      | Abrupt e s2 w2 => Abrupt e s2 w2
      | Normal _ s2 w2 =>
          if Z.eqb (_idx s2) (_steps s2 - 1)
          then Normal tt (with_complete (with_idx s2 0%Z) true) w2
          else Normal tt s2 w2
      end
  end.
Proof.
  intros Hf. unfold __call__.
  destruct (Z.eqb_spec frame 0) as [E | _]; [contradiction |].
  unfold mbind at 1. destruct (update self w) as [[] s w1 | e s w1];
    [| reflexivity].
  unfold mbind at 1. destruct (refresh true s w1) as [[] s2 w2 | e s2 w2];
    [| reflexivity].
  unfold mbind, get_self, assign, mret.
  destruct (Z.eqb (_idx s2) (_steps s2 - 1)); reflexivity.
Qed.

(** ** What a frame keeps *)

(** Every way a frame can end, from a state that is ready. *)
Lemma call_summary frame self w N :
  ready self N ->
  let c := __call__ frame self w in
  let self' := final_self c in
  ready self' N /\
  same_inputs self self' /\
  same_rows_upto (Z.to_nat (_idx self)) self self' /\
  (frame = 0%Z -> c = Normal tt self w) /\
  (_complete self = true ->
   c = Normal tt self' w /\ _complete self' = true /\
   same_posterior self self') /\
  (_complete self = false -> frame <> 0%Z -> is_normal c ->
   ((_idx self + 1 = _steps self - 1)%Z ->
    _idx self' = 0%Z /\ _complete self' = true) /\
   ((_idx self + 1 < _steps self - 1)%Z ->
    _idx self' = (_idx self + 1)%Z /\ _complete self' = false)).
Proof.
  intros Hready c self'. subst c self'.
  destruct Hready as (Hsh & Ht & Hidx).
  assert (Hsh' := Hsh). destruct Hsh' as (Lp & Lw & Ltr & Fp & Fw).
  destruct (Z.eq_dec frame 0) as [-> | Hf].
  - rewrite call_frame_zero.
    rewrite (refresh_succeeds false self w) by (try assumption; lia).
    simpl. split; [split; [exact Hsh | split; [assumption | lia]] |].
    split; [apply same_inputs_refl |]. split; [solve_rows |].
    split; [reflexivity |]. split.
    + intros Hc. repeat split; try reflexivity. exact Hc.
    + intros _ H. congruence.
  - rewrite (call_other_frame frame self w Hf).
    pose proof (update_summary self w N) as Hu. cbv zeta in Hu.
    destruct (update self w) as [[] s w1 | e s w1] eqn:Eu; simpl in Hu.
    + destruct Hu as (Hin & Hc & Hshs & Hrows & Hi).
      specialize (Hshs Hsh). specialize (Hrows (proj1 Hidx)).
      assert (Hs1 := Hshs). destruct Hs1 as (Lp1 & Lw1 & _).
      assert (Hin' := Hin).
      destruct Hin' as (_ & Hsteps & _ & _ & _ & _ & _ & Htruth & _).
      rewrite (refresh_succeeds true s w1)
        by (rewrite ?Lp1, ?Lw1, ?Htruth; try assumption; lia).
      destruct (Z.eqb_spec (_idx s) (_steps s - 1)) as [E | E]; simpl.
      * split; [split; [exact Hshs | split;
                [simpl; rewrite ?Htruth; assumption | simpl; lia]] |].
        split; [exact Hin |]. split; [exact Hrows |].
        split; [intros; contradiction |]. split.
        -- intros Hct.
           rewrite (update_complete self w Hct) in Eu. inversion Eu; subst.
           simpl in *. repeat split.
        -- intros Hcf _ _. split; [intros _; split; reflexivity |].
           intros Hlt. lia.
      * split; [split; [exact Hshs | split;
                [simpl; rewrite ?Htruth; assumption | simpl; lia]] |].
        split; [exact Hin |]. split; [exact Hrows |].
        split; [intros; contradiction |]. split.
        -- intros Hct.
           rewrite (update_complete self w Hct) in Eu. inversion Eu; subst.
           simpl in *. repeat split. exact Hct.
        -- intros Hcf _ _. split; [intros Heq; lia |].
           intros Hlt. split; [exact Hi | congruence].
    + destruct Hu as (Hin & Hc & Hshs & Hrows & Hi & Htr).
      specialize (Hshs Hsh). specialize (Hrows (proj1 Hidx)).
      assert (Hin' := Hin).
      destruct Hin' as (_ & Hsteps & _ & _ & _ & _ & _ & Htruth & _).
      split; [split; [exact Hshs | split;
              [simpl; rewrite ?Htruth; assumption | simpl; lia]] |].
      split; [exact Hin |]. split; [exact Hrows |].
      split; [intros; contradiction |]. split.
      * intros Hct.
        rewrite (update_complete self w Hct) in Eu. discriminate.
      * intros _ _ [].
Qed.

Example demo_is_constructed :
  __init__ two_landmarks demo_algo 3 2 point_prior
    [on_axis 0; on_axis (1 # 100); on_axis (2 # 100)]
    [[5; 11]; [5; 11]; [5; 11]] [1 # 2; 1 # 2; 1 # 2] [0; 0; 0]
    (1 # 50) Q_pf world0 =
  Returns (demo_with demo_algo) world0.
Proof. reflexivity. Qed.

(** ** [update] *)

Lemma setitem_row_in_range {A} (a : list (list A)) i v w row :
  (0 <= i < Z.of_nat (length a))%Z ->
  nth_error a (Z.to_nat i) = Some row ->
  setitem_row a i v w =
  match broadcast_to v (length row) with
  | Some r => Returns (replace_nth (Z.to_nat i) r a) w
  | None => Raises ValueError w
  end.
Proof.
  intros Hi Hrow. unfold setitem_row.
  rewrite (normalize_index_in_range _ _ Hi), Hrow.
  destruct (broadcast_to v (length row)); reflexivity.
Qed.

Lemma shaped_row {A} (a : list (list A)) N i :
  Forall (fun row => length row = N) a ->
  (0 <= i < Z.of_nat (length a))%Z ->
  exists row, nth_error a (Z.to_nat i) = Some row /\ length row = N.
Proof.
  intros Ha Hi.
  destruct (nth_error a (Z.to_nat i)) as [row |] eqn:E.
  - exists row. split; [reflexivity |].
    rewrite Forall_forall in Ha. apply Ha.
    apply nth_error_In in E. exact E.
  - apply nth_error_None in E. lia.
Qed.

(** X1.  When [update] raises, the index has not moved, the trajectory has
    not been written and the posterior is not marked complete: the next
    frame attempts the same time step again. *)
Theorem update_failure_keeps_index self w e self' w' :
  update self w = Abrupt e self' w' ->
  _idx self' = _idx self /\ _complete self' = _complete self /\
  _trajectory self' = _trajectory self /\ same_inputs self self'.
Proof.
  intros H. pose proof (update_summary self w 0) as Hu. cbv zeta in Hu.
  rewrite H in Hu. simpl in Hu.
  destruct Hu as (Hin & Hc & _ & _ & Hi & Htr). auto.
Qed.

(** X2.  When the filter step itself raises, or one of its arguments cannot
    be read, [update] raises the same exception and the object is
    exactly as before. *)
Theorem update_failing_step_leaves_object self w e w1 :
  _complete self = false ->
  step_call self w = Raises e w1 ->
  update self w = Abrupt e self w1.
Proof.
  intros Hc Hs. apply update_step_raises; assumption.
Qed.

(** X3.  The three results of the step are not assigned all-or-nothing: when
    the step returns a particle set that fits the array and a weight
    vector that does not (neither [N] entries nor one), [update] raises
    [ValueError] after the row of particles has been overwritten; the
    weights, the trajectory and the index are as before. *)
Theorem update_assigns_particles_before_weights
    self w N new_particles new_weights state w1 :
  shaped self N ->
  _complete self = false ->
  (0 <= _idx self)%Z -> (_idx self + 1 < _steps self)%Z ->
  step_call self w = Returns (new_particles, new_weights, state) w1 ->
  length new_particles = N ->
  length new_weights <> N -> length new_weights <> 1%nat ->
  update self w =
  Abrupt ValueError
    (with_particles self
       (replace_nth (Z.to_nat (_idx self + 1)) new_particles
          (_particles self)))
    w1.
Proof.
  intros (Lp & Lw & _ & Fp & Fw) Hc Hi0 Hi1 Hs Hnp Hnw Hnw1.
  rewrite (update_step_returns self w _ _ _ w1 Hc Hs).
  assert (Hip : (0 <= _idx self + 1
                 < Z.of_nat (length (_particles self)))%Z) by lia.
  assert (Hiw : (0 <= _idx self + 1
                 < Z.of_nat (length (_weights self)))%Z) by lia.
  destruct (shaped_row _ N _ Fp Hip) as (rowp & Erp & Lrp).
  destruct (shaped_row _ N _ Fw Hiw) as (roww & Erw & Lrw).
  rewrite (setitem_row_in_range _ _ _ _ rowp Hip Erp), Lrp, <- Hnp.
  rewrite broadcast_to_same.
  rewrite (setitem_row_in_range _ _ _ _ roww Hiw Erw), Lrw.
  unfold broadcast_to.
  destruct (Nat.eqb_spec (length new_weights) N) as [E | _];
    [contradiction |].
  destruct new_weights as [| x [| y rest]]; try reflexivity.
  simpl in Hnw1. congruence.
Qed.

(** X4.  When the step returns [N] particles and [N] weights for a time step
    inside the arrays, [update] stores them and the position estimate in
    the next row, leaves every other row as it was, and moves the index
    to that row. *)
Theorem update_stores_step_result
    self w N new_particles new_weights state w1 :
  shaped self N ->
  _complete self = false ->
  (0 <= _idx self)%Z -> (_idx self + 1 < _steps self)%Z ->
  step_call self w = Returns (new_particles, new_weights, state) w1 ->
  length new_particles = N -> length new_weights = N ->
  let next := Z.to_nat (_idx self + 1) in
  exists self',
    update self w = Normal tt self' w1 /\
    _idx self' = (_idx self + 1)%Z /\
    _complete self' = false /\
    nth_error (_particles self') next = Some new_particles /\
    nth_error (_weights self') next = Some new_weights /\
    nth_error (_trajectory self') next = Some (Some (px state, py state)) /\
    (forall j, j <> next ->
       nth_error (_particles self') j = nth_error (_particles self) j /\
       nth_error (_weights self') j = nth_error (_weights self) j /\
       nth_error (_trajectory self') j = nth_error (_trajectory self) j) /\
    shaped self' N.
Proof.
  intros Hsh Hc Hi0 Hi1 Hs Hnp Hnw next.
  assert (Hsh' := Hsh). destruct Hsh' as (Lp & Lw & Lt & Fp & Fw).
  assert (Hip : (0 <= _idx self + 1
                 < Z.of_nat (length (_particles self)))%Z) by lia.
  assert (Hiw : (0 <= _idx self + 1
                 < Z.of_nat (length (_weights self)))%Z) by lia.
  assert (Hit : (0 <= _idx self + 1
                 < Z.of_nat (length (_trajectory self)))%Z) by lia.
  destruct (shaped_row _ N _ Fp Hip) as (rowp & Erp & Lrp).
  destruct (shaped_row _ N _ Fw Hiw) as (roww & Erw & Lrw).
  assert (Heq : update self w =
    Normal tt
      (with_idx
         (with_trajectory
            (with_weights
               (with_particles self
                  (replace_nth next new_particles (_particles self)))
               (replace_nth next new_weights (_weights self)))
            (replace_nth next (Some (px state, py state))
               (_trajectory self)))
         (_idx self + 1)%Z)
      w1).
  { rewrite (update_step_returns self w _ _ _ w1 Hc Hs).
    rewrite (setitem_row_in_range _ _ _ _ rowp Hip Erp), Lrp, <- Hnp.
    rewrite broadcast_to_same.
    rewrite (setitem_row_in_range _ _ _ _ roww Hiw Erw), Lrw, <- Hnw.
    rewrite broadcast_to_same.
    unfold setitem. rewrite (normalize_index_in_range _ _ Hit).
    reflexivity. }
  pose proof (update_summary self w N) as Hu. cbv zeta in Hu.
  rewrite Heq in Hu. simpl in Hu. destruct Hu as (_ & _ & Hshs & _ & _).
  eexists. split; [exact Heq |]. simpl.
  split; [reflexivity |]. split; [exact Hc |].
  split; [apply nth_error_replace_nth_same; lia |].
  split; [apply nth_error_replace_nth_same; lia |].
  split; [apply nth_error_replace_nth_same; lia |].
  split; [| exact (Hshs Hsh)].
  intros j Hj. repeat split; apply nth_error_replace_nth_other; exact Hj.
Qed.

(** ** The animation *)

Lemma animate_cons frame rest self w :
  animate (frame :: rest) self w =
  match __call__ frame self w with
  | Normal _ s w1 => animate rest s w1
  | Abrupt e s w1 => Abrupt e s w1
  end.
Proof.
  cbn [animate]. unfold mbind.
  destruct (__call__ frame self w) as [[] s w1 | e s w1]; reflexivity.
Qed.

Lemma same_rows_upto_trans n m a b c :
  (n <= m)%nat ->
  same_rows_upto n a b -> same_rows_upto m b c -> same_rows_upto n a c.
Proof.
  intros Hnm H1 H2 j Hj.
  destruct (H1 j Hj) as (P1 & W1 & T1).
  destruct (H2 j) as (P2 & W2 & T2); [lia |].
  repeat split; congruence.
Qed.

(** Every way an animation can end, from a state that is ready. *)
Lemma animate_summary frames : forall self w N,
  ready self N ->
  let c := animate frames self w in
  let self' := final_self c in
  ready self' N /\
  same_inputs self self' /\
  same_rows_upto 0 self self' /\
  (_complete self = true ->
   c = Normal tt self' w /\ _complete self' = true /\
   same_posterior self self').
Proof.
  induction frames as [| frame rest IH]; intros self w N Hready; cbv zeta.
  - simpl. split; [exact Hready |]. split; [apply same_inputs_refl |].
    split; [solve_rows |]. intros Hc. repeat split; try reflexivity.
    exact Hc.
  - rewrite animate_cons.
    pose proof (call_summary frame self w N Hready) as Hcall.
    cbv zeta in Hcall.
    destruct Hcall as (Hr1 & Hin1 & Hrows1 & _ & Hc1 & _).
    assert (Hrows0 : same_rows_upto 0 self
                       (final_self (__call__ frame self w))).
    { intros j Hj. apply Hrows1. lia. }
    destruct (__call__ frame self w) as [[] s w1 | e s w1] eqn:Ec;
      simpl in *.
    + specialize (IH s w1 N Hr1). cbv zeta in IH.
      destruct IH as (Hr2 & Hin2 & Hrows2 & Hc2).
      split; [exact Hr2 |].
      split; [exact (same_inputs_trans _ _ _ Hin1 Hin2) |].
      split; [exact (same_rows_upto_trans 0 0 _ _ _ (le_n 0) Hrows0 Hrows2) |].
      intros Hc. destruct (Hc1 Hc) as (Eq1 & Hcs & Hp1).
      inversion Eq1; subst.
      destruct (Hc2 Hcs) as (Eq2 & Hcs2 & Hp2).
      split; [exact Eq2 |]. split; [exact Hcs2 |].
      destruct Hp1 as (A1 & A2 & A3). destruct Hp2 as (B1 & B2 & B3).
      repeat split; congruence.
    + split; [exact Hr1 |]. split; [exact Hin1 |]. split; [exact Hrows0 |].
      intros Hc. destruct (Hc1 Hc) as (Eq1 & _). discriminate.
Qed.

(** X5.  The class invariant.  From a state with arrays of the right shape,
    a truth that is not empty and the index before the last time step,
    any sequence of frames, however it ends, leaves a state of that kind,
    does not touch the inputs set by the constructor, and does not
    overwrite row 0 of the arrays: the initial particles and weights
    stay, and the first row of the trajectory stays NaN. *)
Theorem animation_keeps_invariant frames self w N :
  ready self N ->
  let self' := final_self (animate frames self w) in
  ready self' N /\ same_inputs self self' /\ same_rows_upto 0 self self'.
Proof.
  intros Hready.
  destruct (animate_summary frames self w N Hready) as (H1 & H2 & H3 & _).
  auto.
Qed.

(** X6.  Once the posterior is complete, the animation only replays it: every
    further sequence of frames ends normally, leaves the three arrays and
    the world as they are (the filter step is not called, no random draw
    is consumed, nothing is printed), and the posterior stays complete. *)
Theorem animation_replays_complete_posterior frames self w N :
  ready self N -> _complete self = true ->
  exists self',
    animate frames self w = Normal tt self' w /\
    _complete self' = true /\ same_posterior self self'.
Proof.
  intros Hready Hc.
  destruct (animate_summary frames self w N Hready) as (_ & _ & _ & H).
  destruct (H Hc) as (Eq & Hc' & Hp).
  eexists. split; [exact Eq |]. split; assumption.
Qed.

(** The first pass of the animation, frame by frame. *)
Lemma animate_first_pass frames : forall self w N,
  ready self N -> _complete self = false ->
  Forall (fun frame => frame <> 0%Z) frames ->
  is_normal (animate frames self w) ->
  let self' := final_self (animate frames self w) in
  let k := Z.of_nat (length frames) in
  ((_idx self + k < _steps self - 1)%Z ->
   _idx self' = (_idx self + k)%Z /\ _complete self' = false) /\
  ((_idx self + k = _steps self - 1)%Z ->
   _idx self' = 0%Z /\ _complete self' = true).
Proof.
  induction frames as [| frame rest IH];
    intros self w N Hready Hc Hnz Hnorm; cbv zeta.
  - simpl. split.
    + intros _. split; [lia | exact Hc].
    + destruct Hready as (_ & _ & Hi). intros H. lia.
  - inversion Hnz as [| ? ? Hf Hnz']; subst.
    rewrite animate_cons in *.
    pose proof (call_summary frame self w N Hready) as Hcall.
    cbv zeta in Hcall.
    destruct Hcall as (Hr1 & Hin1 & _ & _ & _ & Hstep).
    destruct (__call__ frame self w) as [[] s w1 | e s w1] eqn:Ec;
      simpl in Hnorm; [| contradiction].
    simpl in Hr1, Hin1, Hstep.
    destruct (Hstep Hc Hf I) as [Hlast Hmid].
    destruct Hin1 as (_ & Hsteps & _).
    cbn [length]. rewrite Nat2Z.inj_succ.
    destruct Hready as (_ & _ & Hi).
    destruct (Z.eq_dec (_idx self + 1) (_steps self - 1)) as [E | E].
    + destruct (Hlast E) as [Hi0 Hct].
      destruct (animate_summary rest s w1 N Hr1) as (_ & _ & _ & Hrep).
      destruct (Hrep Hct) as (Eq & Hct' & _).
      split; [intros H; lia |].
      intros H. assert (Hrest : rest = []).
      { destruct rest; [reflexivity | simpl in H; lia]. }
      subst rest. simpl. split; assumption.
    + assert (Hlt : (_idx self + 1 < _steps self - 1)%Z) by lia.
      destruct (Hmid Hlt) as [Hi1 Hcf].
      specialize (IH s w1 N Hr1 Hcf Hnz' Hnorm). cbv zeta in IH.
      rewrite Hi1, Hsteps in IH. destruct IH as [IH1 IH2].
      split; intros H.
      * destruct IH1 as [A B]; [lia |]. split; [lia | exact B].
      * apply IH2. lia.
Qed.

(** X7.  The first pass.  From a state that is ready and not complete, frames
    other than frame 0 that all end normally move the index by one each,
    until the frame that reaches the last time step, which puts the index
    back to 0 and marks the posterior complete. *)
Theorem animation_completes_at_last_step frames self w N :
  ready self N -> _complete self = false ->
  Forall (fun frame => frame <> 0%Z) frames ->
  is_normal (animate frames self w) ->
  let self' := final_self (animate frames self w) in
  let k := Z.of_nat (length frames) in
  ((_idx self + k < _steps self - 1)%Z ->
   _idx self' = (_idx self + k)%Z /\ _complete self' = false) /\
  ((_idx self + k = _steps self - 1)%Z ->
   _idx self' = 0%Z /\ _complete self' = true).
Proof.
  apply animate_first_pass.
Qed.

(** ** The constructor *)

Lemma np_zeros_returns {A} (zero : A) rows cols w a w' :
  np_zeros zero rows cols w = Returns a w' ->
  (0 <= rows)%Z /\ (0 <= cols)%Z /\ w' = w /\
  a = repeat (repeat zero (Z.to_nat cols)) (Z.to_nat rows).
Proof.
  unfold np_zeros. destruct ((rows <? 0) || (cols <? 0))%Z eqn:E;
    [discriminate |].
  apply orb_false_iff in E. intros H. inversion H; subst.
  repeat split; lia.
Qed.

Lemma np_zeros_nonneg {A} (zero : A) rows cols w :
  (0 <= rows)%Z -> (0 <= cols)%Z ->
  np_zeros zero rows cols w =
  Returns (repeat (repeat zero (Z.to_nat cols)) (Z.to_nat rows)) w.
Proof.
  intros Hr Hc. unfold np_zeros.
  replace ((rows <? 0) || (cols <? 0))%Z with false; [reflexivity |].
  symmetry. apply orb_false_iff. lia.
Qed.

Lemma np_zeros_negative {A} (zero : A) rows cols w :
  (rows < 0 \/ cols < 0)%Z ->
  np_zeros zero rows cols w = Raises ValueError w.
Proof.
  intros H. unfold np_zeros.
  replace ((rows <? 0) || (cols <? 0))%Z with true; [reflexivity |].
  symmetry. apply orb_true_iff. lia.
Qed.

(** Row 0 of the weights the constructor writes: one number, once per
    particle, and that number is positive. *)
Lemma initial_weights_equal n :
  (0 < n)%Z ->
  map (Qmult (1 / inject_Z n)) (repeat 1 (Z.to_nat n)) =
  repeat (1 / inject_Z n * 1) (Z.to_nat n) /\
  0 < 1 / inject_Z n * 1.
Proof.
  intros Hn. split; [apply map_repeat |].
  assert (Hq : 0 < inject_Z n).
  { change 0 with (inject_Z 0). rewrite <- Zlt_Qlt. exact Hn. }
  assert (H0 : 0 < 1 / inject_Z n) by (apply Qlt_shift_div_l; lra).
  lra.
Qed.

(** X8.  The constructor refuses a particle count or a number of time steps
    that is not positive: it raises and no object is made. *)
Theorem init_rejects_empty_run
    get_landmarks algo steps n_particles prior truth measurements
    linear_vel angular_vel dt process_noise_cov w :
  (n_particles <= 0 \/ steps <= 0)%Z ->
  exists e w',
    __init__ get_landmarks algo steps n_particles prior truth measurements
      linear_vel angular_vel dt process_noise_cov w = Raises e w'.
Proof.
  intros Hbad. unfold __init__, bind.
  destruct (np_zeros (mkParticle 0 0 0) steps n_particles w)
    as [zp wa | e wa] eqn:Ezp; [| eauto].
  apply np_zeros_returns in Ezp. destruct Ezp as (Hs & Hn & -> & ->).
  rewrite (np_zeros_nonneg 0 steps n_particles w Hs Hn).
  destruct (getitem truth 0%Z w) as [first wb | e wb]; [| eauto].
  destruct (prior first n_particles wb) as [drawn wc | e wc]; [| eauto].
  destruct (setitem_row _ 0%Z drawn wc) as [particles wd | e wd] eqn:Ep;
    [| eauto].
  destruct (Z.eqb_spec n_particles 0) as [En | En].
  - unfold raise. eauto.
  - exfalso. assert (Hs0 : steps = 0%Z) by lia. subst steps.
    simpl in Ep. discriminate.
Qed.

Lemma Forall_repeat {A} (P : A -> Prop) x n : P x -> Forall P (repeat x n).
Proof.
  intros H. apply Forall_forall. intros y Hy.
  apply repeat_spec in Hy. subst y. exact H.
Qed.

(** The constructor, when it returns. *)
Lemma init_summary
    get_landmarks algo steps n_particles prior truth measurements
    linear_vel angular_vel dt process_noise_cov w self w' :
  __init__ get_landmarks algo steps n_particles prior truth measurements
    linear_vel angular_vel dt process_noise_cov w = Returns self w' ->
  (0 < steps)%Z /\ (0 < n_particles)%Z /\
  shaped self (Z.to_nat n_particles) /\
  _steps self = steps /\ _idx self = 0%Z /\ _complete self = false /\
  _truth self <> [] /\ _landmarks self <> [] /\
  (exists share, 0 < share /\
     nth_error (_weights self) 0 =
     Some (repeat share (Z.to_nat n_particles))) /\
  Forall (fun r => r = None) (_trajectory self) /\
  ((2 <= steps)%Z -> ready self (Z.to_nat n_particles)).
Proof.
  unfold __init__, bind.
  destruct (np_zeros (mkParticle 0 0 0) steps n_particles w)
    as [zp wa | e wa] eqn:Ezp; [| discriminate].
  apply np_zeros_returns in Ezp. destruct Ezp as (Hs & Hn & -> & ->).
  rewrite (np_zeros_nonneg 0 steps n_particles w Hs Hn).
  destruct (getitem truth 0%Z w) as [first wb | e wb] eqn:Et;
    [| discriminate].
  destruct (prior first n_particles wb) as [drawn wc | e wc];
    [| discriminate].
  destruct (setitem_row _ 0%Z drawn wc) as [particles wd | e wd] eqn:Ep;
    [| discriminate].
  destruct (Z.eqb_spec n_particles 0) as [En | En]; [discriminate |].
  unfold ret at 1.
  destruct (setitem_row _ 0%Z _ wd) as [weights we | e we] eqn:Ew;
    [| discriminate].
  destruct (get_landmarks we) as [landmarks wf | e wf]; [| discriminate].
  destruct landmarks as [| lm landmarks]; [discriminate |].
  unfold ret. intros H. inversion H; subst. clear H. simpl.
  assert (Hnpos : (0 < n_particles)%Z) by lia.
  assert (Hspos : (0 < steps)%Z).
  { destruct (Z.eq_dec steps 0) as [-> | ]; [| lia].
    simpl in Ep. discriminate. }
  assert (Htruth : truth <> []).
  { intros ->. unfold getitem in Et. simpl in Et. discriminate. }
  destruct (setitem_row_shape _ _ _ _ _ _ (Z.to_nat n_particles) Ep)
    as [Lp Fp]; [apply Forall_repeat, repeat_length |].
  destruct (setitem_row_shape _ _ _ _ _ _ (Z.to_nat n_particles) Ew)
    as [Lw Fw]; [apply Forall_repeat, repeat_length |].
  rewrite repeat_length in Lp, Lw.
  assert (Hsh : shaped
    (mkLocalization2D algo steps n_particles linear_vel angular_vel dt
       process_noise_cov particles weights (repeat None (Z.to_nat steps))
       truth measurements (lm :: landmarks) 0%Z false)
    (Z.to_nat n_particles)).
  { unfold shaped. simpl. rewrite Lp, Lw, repeat_length.
    repeat split; try lia; assumption. }
  split; [exact Hspos |]. split; [exact Hnpos |]. split; [exact Hsh |].
  split; [reflexivity |]. split; [reflexivity |]. split; [reflexivity |].
  split; [exact Htruth |]. split; [discriminate |].
  split; [| split; [apply Forall_repeat; reflexivity |]].
  - destruct (initial_weights_equal n_particles Hnpos) as (Heq & Hpos).
    assert (Hl : length (map (Qmult (1 / inject_Z n_particles))
                             (repeat 1 (Z.to_nat n_particles))) =
                 Z.to_nat n_particles)
      by (rewrite length_map, repeat_length; reflexivity).
    apply setitem_row_returns in Ew.
    destruct Ew as (_ & n & row & r & Hidx & Hrow & Hb & ->).
    apply normalize_index_nonneg in Hidx; [| lia]. subst n.
    assert (Hrl : length row = Z.to_nat n_particles).
    { apply nth_error_In in Hrow. apply repeat_spec in Hrow. subst row.
      apply repeat_length. }
    rewrite Hrl in Hb. apply (broadcast_to_exact _ _ _ Hl) in Hb. subst r.
    exists (1 / inject_Z n_particles * 1).
    split; [exact Hpos |]. rewrite <- Heq.
    assert (Hlt : (Z.to_nat 0 < length (repeat (repeat 0%Q
                     (Z.to_nat n_particles)) (Z.to_nat steps)))%nat)
      by (rewrite repeat_length; lia).
    exact (nth_error_replace_nth_same _ _ _ Hlt).
  - intros H2. split; [exact Hsh |]. split; [exact Htruth |]. simpl. lia.
Qed.

(** X9.  What the constructor establishes when it returns: both sizes are
    positive, the arrays have one row per time step and one entry per
    particle, the index is 0 and the posterior is not complete, row 0 of
    the weights holds one positive number once per particle, the
    trajectory is all NaN, and neither the truth nor the landmark table
    is empty.  With at least two time steps the object is ready for its
    first frame. *)
Theorem init_establishes_invariant
    get_landmarks algo steps n_particles prior truth measurements
    linear_vel angular_vel dt process_noise_cov w self w' :
  __init__ get_landmarks algo steps n_particles prior truth measurements
    linear_vel angular_vel dt process_noise_cov w = Returns self w' ->
  (0 < steps)%Z /\ (0 < n_particles)%Z /\
  shaped self (Z.to_nat n_particles) /\
  _steps self = steps /\ _idx self = 0%Z /\ _complete self = false /\
  _truth self <> [] /\ _landmarks self <> [] /\
  (exists share, 0 < share /\
     nth_error (_weights self) 0 =
     Some (repeat share (Z.to_nat n_particles))) /\
  Forall (fun r => r = None) (_trajectory self) /\
  ((2 <= steps)%Z -> ready self (Z.to_nat n_particles)).
Proof.
  apply init_summary.
Qed.

(** * More on the filter step *)

Section StepExtras.

Variable get_landmarks : M (list landmark).
Variable resample : list particle -> list Q -> M (list particle * list Q).

Variables (particles : list particle) (weights : list Q).
Variables (linear_vel angular_vel dt : Q) (process_noise_cov : list (list Q)).
Variables (transition_fcn : transition_t).

Let predict := transition_fcn particles linear_vel angular_vel dt process_noise_cov.

(** X12.  A prediction whose length differs from the length of the weight
    vector stops the step with a [ValueError], right after the
    prediction: no landmark is fetched and no likelihood computed. *)
Theorem mismatched_prediction_rejected
    measurement time_step neff_thres skip likelihood_fcn w0 predicted wp :
  predict w0 = Returns predicted wp ->
  length weights <> length predicted ->
  localization_2d_pf get_landmarks resample particles weights measurement
    linear_vel angular_vel dt process_noise_cov time_step neff_thres skip
    transition_fcn likelihood_fcn w0 = Raises ValueError wp.
Proof.
  intros Hp Hlen. unfold localization_2d_pf, bind. fold predict.
  rewrite Hp. unfold np_average.
  destruct (Nat.eqb_spec (length weights) (length predicted)) as [E | _];
    [contradiction | reflexivity].
Qed.

End StepExtras.

(** X13.  Between updates nothing of the update machinery is used: whatever
    the landmark source, the resampler, the likelihood function, the
    threshold and the measurement, the step has the same outcome. *)
Theorem update_machinery_unused_between_updates
    gl1 gl2 rs1 rs2 particles weights m1 m2 linear_vel angular_vel dt
    process_noise_cov time_step thres1 thres2 skip
    (transition_fcn : transition_t) (lf1 lf2 : likelihood_t) w0 :
  np_mod time_step skip <> 0%Z ->
  localization_2d_pf gl1 rs1 particles weights m1 linear_vel angular_vel dt
    process_noise_cov time_step thres1 skip transition_fcn lf1 w0 =
  localization_2d_pf gl2 rs2 particles weights m2 linear_vel angular_vel dt
    process_noise_cov time_step thres2 skip transition_fcn lf2 w0.
Proof.
  intros Hk. unfold localization_2d_pf, bind.
  destruct (Z.eqb_spec (np_mod time_step skip) 0) as [E | _];
    [contradiction | reflexivity].
Qed.

Lemma Neff_of_zero_weights ws :
  Forall (fun x => x == 0) ws -> Neff ws = PosInf /\ np_sum ws == 0.
Proof.
  intros H.
  assert (Hs : np_sum (np_square ws) == 0 /\ np_sum ws == 0).
  { induction H as [| x ws Hx _ [IH1 IH2]]; simpl; [split; reflexivity |].
    rewrite IH1, IH2, Hx. split; reflexivity. }
  destruct Hs as [Hs1 Hs2]. split; [| exact Hs2].
  unfold Neff, np_reciprocal. apply Qeq_bool_iff in Hs1.
  rewrite Hs1. reflexivity.
Qed.

(** X14.  Likelihood weights that are all zero are not caught by the step: on
    an update step they give an infinite effective sample size, which is
    below no threshold, so the step returns them without resampling; any
    later step that is handed these weights raises. *)
Theorem zero_likelihood_weights_pass_then_fail
    get_landmarks resample particles weights measurement
    linear_vel angular_vel dt process_noise_cov time_step neff_thres skip
    (transition_fcn : transition_t) (likelihood_fcn : likelihood_t)
    w0 predicted w1 landmarks w2 new_weights w3 :
  np_mod time_step skip = 0%Z ->
  transition_fcn particles linear_vel angular_vel dt process_noise_cov w0 =
  Returns predicted w1 ->
  length weights = length predicted ->
  ~ np_sum weights == 0 ->
  get_landmarks w1 = Returns landmarks w2 ->
  likelihood_fcn predicted landmarks measurement w2 = Returns new_weights w3 ->
  Forall (fun x => x == 0) new_weights ->
  localization_2d_pf get_landmarks resample particles weights measurement
    linear_vel angular_vel dt process_noise_cov time_step neff_thres skip
    transition_fcn likelihood_fcn w0 =
  Returns (predicted, new_weights, weighted_mean predicted weights) w3 /\
  forall measurement' linear_vel' angular_vel' dt' time_step' neff_thres'
         skip' w0',
  exists e w',
    localization_2d_pf get_landmarks resample predicted new_weights
      measurement' linear_vel' angular_vel' dt' process_noise_cov
      time_step' neff_thres' skip' transition_fcn likelihood_fcn w0' =
    Raises e w'.
Proof.
  intros Hk Hp Hl Hs Hg Hlik Hz.
  destruct (Neff_of_zero_weights new_weights Hz) as [HN Hsum].
  split.
  - unfold localization_2d_pf, bind.
    rewrite Hp, (np_average_returns _ _ _ Hl Hs), Hk. simpl.
    rewrite Hg, Hlik, HN. reflexivity.
  - intros m' v' om' dt' k' thres' skip' w0'.
    destruct (step_zero_sum get_landmarks resample predicted new_weights
                v' om' dt' process_noise_cov thres' transition_fcn
                likelihood_fcn m' k' skip' w0' Hsum) as (e & w' & Hr & _).
    exists e, w'. exact Hr.
Qed.

(** * From the constructor to the complete posterior *)

(** X10.  An object fresh from the constructor, with at least two time steps,
    that is shown [steps - 1] frames other than frame 0, all of which end
    normally, has its posterior complete and its index back at 0.  Its
    arrays still have one row per time step and one entry per particle,
    row 0 of its weights still holds the one positive number the
    constructor wrote, once per particle, and row 0 of its trajectory is
    still NaN: the first estimate is in row 1. *)
Theorem constructed_demo_runs_to_completion
    get_landmarks algo steps n_particles prior truth measurements
    linear_vel angular_vel dt process_noise_cov w self w1 frames :
  __init__ get_landmarks algo steps n_particles prior truth measurements
    linear_vel angular_vel dt process_noise_cov w = Returns self w1 ->
  (2 <= steps)%Z ->
  Forall (fun frame => frame <> 0%Z) frames ->
  Z.of_nat (length frames) = (steps - 1)%Z ->
  is_normal (animate frames self w1) ->
  let self' := final_self (animate frames self w1) in
  _idx self' = 0%Z /\ _complete self' = true /\
  shaped self' (Z.to_nat n_particles) /\
  nth_error (_trajectory self') 0 = Some None /\
  exists share, 0 < share /\
    nth_error (_weights self') 0 =
    Some (repeat share (Z.to_nat n_particles)).
Proof.
  intros Hinit H2 Hnz Hlen Hnorm self'. subst self'.
  destruct (init_summary _ _ _ _ _ _ _ _ _ _ _ _ _ _ Hinit)
    as (Hs & Hn & Hsh & Hsteps & Hidx & Hc & _ & _ & Hrow & Htr & Hready).
  specialize (Hready H2).
  destruct (animate_first_pass frames self w1 _ Hready Hc Hnz Hnorm)
    as [_ Hlast].
  destruct Hlast as [Hi' Hc']; [rewrite Hidx, Hsteps; lia |].
  destruct (animate_summary frames self w1 _ Hready)
    as ((Hsh' & _) & _ & Hrows & _).
  destruct (Hrows 0%nat (le_n 0)) as (_ & Hw0 & Ht0).
  split; [exact Hi' |]. split; [exact Hc' |]. split; [exact Hsh' |].
  split.
  - rewrite Ht0. destruct Hsh as (_ & _ & Lt & _).
    destruct (_trajectory self) as [| r rest] eqn:E.
    + simpl in Lt. lia.
    + inversion Htr; subst. reflexivity.
  - destruct Hrow as (share & Hpos & Hr). exists share.
    rewrite Hw0. auto.
Qed.

(** * The demo, run *)

Lemma demo_shaped algo : shaped (demo_with algo) 2.
Proof.
  unfold shaped. simpl. repeat split; repeat constructor.
Defined.

Lemma demo_ready algo : ready (demo_with algo) 2.
Proof.
  split; [apply demo_shaped |]. split; [discriminate | simpl; lia].
Defined.

Lemma update_failure_keeps_index_witness :
  _idx (demo_with failing_algo) = _idx (demo_with failing_algo) /\
  _complete (demo_with failing_algo) = _complete (demo_with failing_algo) /\
  _trajectory (demo_with failing_algo) = _trajectory (demo_with failing_algo) /\
  same_inputs (demo_with failing_algo) (demo_with failing_algo).
Proof.
  apply (update_failure_keeps_index (demo_with failing_algo) world0
           (OtherError "step") (demo_with failing_algo) world0).
  reflexivity.
Defined.

Lemma update_failing_step_leaves_object_witness :
  update (demo_with failing_algo) world0 =
  Abrupt (OtherError "step") (demo_with failing_algo) world0.
Proof.
  apply update_failing_step_leaves_object; reflexivity.
Defined.

Lemma update_assigns_particles_before_weights_witness :
  update (demo_with three_weights_algo) world0 =
  Abrupt ValueError
    (with_particles (demo_with three_weights_algo)
       [[on_axis 0; on_axis 0];
        [on_axis (1 # 100); on_axis (1 # 100)];
        [on_axis 0; on_axis 0]])
    world0.
Proof.
  apply (update_assigns_particles_before_weights
           (demo_with three_weights_algo) world0 2
           [on_axis (1 # 100); on_axis (1 # 100)]
           [1 # 4; 1 # 4; 1 # 2]
           (weighted_mean [on_axis (1 # 100); on_axis (1 # 100)]
                          [1 # 2; 1 # 2])
           world0).
  - apply demo_shaped.
  - reflexivity.
  - simpl. lia.
  - simpl. lia.
  - vm_compute. reflexivity.
  - reflexivity.
  - simpl. lia.
  - simpl. lia.
Defined.

Lemma update_stores_step_result_witness :
  exists self',
    update (demo_with demo_algo) world0 = Normal tt self' world0 /\
    _idx self' = 1%Z /\
    _complete self' = false /\
    nth_error (_particles self') 1 =
    Some [on_axis (1 # 100); on_axis (1 # 100)] /\
    nth_error (_weights self') 1 = Some [1 # 2; 1 # 2] /\
    nth_error (_trajectory self') 1 =
    Some (Some (px (weighted_mean [on_axis (1 # 100); on_axis (1 # 100)]
                                  [1 # 2; 1 # 2]),
                py (weighted_mean [on_axis (1 # 100); on_axis (1 # 100)]
                                  [1 # 2; 1 # 2]))) /\
    (forall j, j <> 1%nat ->
       nth_error (_particles self') j =
       nth_error (_particles (demo_with demo_algo)) j /\
       nth_error (_weights self') j =
       nth_error (_weights (demo_with demo_algo)) j /\
       nth_error (_trajectory self') j =
       nth_error (_trajectory (demo_with demo_algo)) j) /\
    shaped self' 2.
Proof.
  apply (update_stores_step_result (demo_with demo_algo) world0 2
           [on_axis (1 # 100); on_axis (1 # 100)] [1 # 2; 1 # 2]
           (weighted_mean [on_axis (1 # 100); on_axis (1 # 100)]
                          [1 # 2; 1 # 2])
           world0).
  - apply demo_shaped.
  - reflexivity.
  - simpl. lia.
  - simpl. lia.
  - vm_compute. reflexivity.
  - reflexivity.
  - reflexivity.
Defined.

Lemma animation_keeps_invariant_witness :
  let self' := final_self (animate [0; 1; 2]%Z (demo_with demo_algo) world0) in
  ready self' 2 /\ same_inputs (demo_with demo_algo) self' /\
  same_rows_upto 0 (demo_with demo_algo) self'.
Proof.
  apply animation_keeps_invariant. apply demo_ready.
Defined.

Lemma animation_replays_complete_posterior_witness :
  exists self',
    animate [1; 0; 2; 3]%Z (with_complete (demo_with demo_algo) true) world0
    = Normal tt self' world0 /\
    _complete self' = true /\
    same_posterior (with_complete (demo_with demo_algo) true) self'.
Proof.
  apply (animation_replays_complete_posterior _ _ _ 2).
  - apply (demo_ready demo_algo).
  - reflexivity.
Defined.

Lemma animation_completes_at_last_step_witness :
  let self' := final_self (animate [1; 2]%Z (demo_with demo_algo) world0) in
  ((0 + 2 < 3 - 1)%Z -> _idx self' = (0 + 2)%Z /\ _complete self' = false) /\
  ((0 + 2 = 3 - 1)%Z -> _idx self' = 0%Z /\ _complete self' = true).
Proof.
  apply (animation_completes_at_last_step [1; 2]%Z (demo_with demo_algo)
           world0 2).
  - apply demo_ready.
  - reflexivity.
  - repeat constructor; discriminate.
  - vm_compute. exact I.
Defined.

Lemma init_rejects_empty_run_witness :
  exists e w',
    __init__ two_landmarks demo_algo 3 0 point_prior
      [on_axis 0; on_axis (1 # 100); on_axis (2 # 100)]
      [[5; 11]; [5; 11]; [5; 11]] [1 # 2; 1 # 2; 1 # 2] [0; 0; 0]
      (1 # 50) Q_pf world0 = Raises e w'.
Proof.
  apply init_rejects_empty_run. left. lia.
Defined.

Lemma init_establishes_invariant_witness :
  (0 < 3)%Z /\ (0 < 2)%Z /\
  shaped (demo_with demo_algo) (Z.to_nat 2) /\
  _steps (demo_with demo_algo) = 3%Z /\
  _idx (demo_with demo_algo) = 0%Z /\
  _complete (demo_with demo_algo) = false /\
  _truth (demo_with demo_algo) <> [] /\
  _landmarks (demo_with demo_algo) <> [] /\
  (exists share, 0 < share /\
     nth_error (_weights (demo_with demo_algo)) 0 =
     Some (repeat share (Z.to_nat 2))) /\
  Forall (fun r => r = None) (_trajectory (demo_with demo_algo)) /\
  ((2 <= 3)%Z -> ready (demo_with demo_algo) (Z.to_nat 2)).
Proof.
  apply (init_establishes_invariant two_landmarks demo_algo 3 2 point_prior
           [on_axis 0; on_axis (1 # 100); on_axis (2 # 100)]
           [[5; 11]; [5; 11]; [5; 11]] [1 # 2; 1 # 2; 1 # 2] [0; 0; 0]
           (1 # 50) Q_pf world0 (demo_with demo_algo) world0).
  reflexivity.
Defined.

Lemma constructed_demo_runs_to_completion_witness :
  let self' := final_self (animate [1; 2]%Z (demo_with demo_algo) world0) in
  _idx self' = 0%Z /\ _complete self' = true /\
  shaped self' (Z.to_nat 2) /\
  nth_error (_trajectory self') 0 = Some None /\
  exists share, 0 < share /\
    nth_error (_weights self') 0 = Some (repeat share (Z.to_nat 2)).
Proof.
  apply (constructed_demo_runs_to_completion two_landmarks demo_algo 3 2
           point_prior
           [on_axis 0; on_axis (1 # 100); on_axis (2 # 100)]
           [[5; 11]; [5; 11]; [5; 11]] [1 # 2; 1 # 2; 1 # 2] [0; 0; 0]
           (1 # 50) Q_pf world0 (demo_with demo_algo) world0 [1; 2]%Z).
  - reflexivity.
  - lia.
  - repeat constructor; discriminate.
  - reflexivity.
  - vm_compute. exact I.
Defined.

(** * The step extras, run *)

Lemma mismatched_prediction_rejected_witness :
  localization_2d_pf two_landmarks systematic_resample
    [on_axis 0; on_axis 4] [1 # 3; 1 # 3; 1 # 3] [3; 3]
    (1 # 2) 0 (1 # 50) Q_pf 1 50 100 drift checked_likelihood world0 =
  Raises ValueError world0.
Proof.
  apply (mismatched_prediction_rejected two_landmarks systematic_resample
           [on_axis 0; on_axis 4] [1 # 3; 1 # 3; 1 # 3] (1 # 2) 0 (1 # 50)
           Q_pf drift [3; 3] 1 50 100 checked_likelihood world0
           [on_axis (1 # 100); on_axis (401 # 100)] world0).
  - vm_compute. reflexivity.
  - simpl. lia.
Defined.

Lemma update_machinery_unused_between_updates_witness :
  localization_2d_pf two_landmarks systematic_resample
    [on_axis 0; on_axis 4] [1 # 2; 1 # 2] [3; 3] (1 # 2) 0 (1 # 50) Q_pf
    101 50 100 drift checked_likelihood world0 =
  localization_2d_pf (raise (OtherError "landmarks"))
    (fun _ _ => raise (OtherError "resample"))
    [on_axis 0; on_axis 4] [1 # 2; 1 # 2] [] (1 # 2) 0 (1 # 50) Q_pf
    101 0 100 drift (fun _ _ _ => raise (OtherError "likelihood")) world0.
Proof.
  apply update_machinery_unused_between_updates. vm_compute. discriminate.
Defined.

Lemma zero_likelihood_weights_pass_then_fail_witness :
  localization_2d_pf two_landmarks systematic_resample
    [on_axis 0; on_axis 4] [1 # 2; 1 # 2] [3; 3] (1 # 2) 0 (1 # 50) Q_pf
    100 50 100 drift (fixed_likelihood [0; 0]) world0 =
  Returns ([on_axis (1 # 100); on_axis (401 # 100)], [0; 0],
           weighted_mean [on_axis (1 # 100); on_axis (401 # 100)]
                         [1 # 2; 1 # 2])
          world0 /\
  forall measurement' linear_vel' angular_vel' dt' time_step' neff_thres'
         skip' w0',
  exists e w',
    localization_2d_pf two_landmarks systematic_resample
      [on_axis (1 # 100); on_axis (401 # 100)] [0; 0]
      measurement' linear_vel' angular_vel' dt' Q_pf
      time_step' neff_thres' skip' drift (fixed_likelihood [0; 0]) w0' =
    Raises e w'.
Proof.
  apply (zero_likelihood_weights_pass_then_fail two_landmarks
           systematic_resample [on_axis 0; on_axis 4] [1 # 2; 1 # 2] [3; 3]
           (1 # 2) 0 (1 # 50) Q_pf 100 50 100 drift
           (fixed_likelihood [0; 0]) world0
           [on_axis (1 # 100); on_axis (401 # 100)] world0
           [(0, 5); (10, 5)] world0 [0; 0] world0).
  - reflexivity.
  - vm_compute. reflexivity.
  - reflexivity.
  - intros H. vm_compute in H. discriminate H.
  - reflexivity.
  - reflexivity.
  - repeat constructor.
Defined.

(** The step on doubles, on an update step with the threshold 6 and six
    likelihood weights equal to the double [1 / 6]: line 81 gives
    5.999999999999999, which is below the threshold. *)
Lemma step_resamples_below_threshold_witness :
  xfloat_ltb (Neff_binary64 (repeat sixth 6)) 6 = true /\
  localization_2d_pf_with Neff_binary64 two_landmarks systematic_resample
    (map on_axis [0; 1; 2; 3; 4; 5]) (repeat sixth 6) [3; 3]
    (1 # 2) 0 (1 # 50) Q_pf
    100 6 100 drift (fixed_likelihood (repeat sixth 6)) world0 =
  Returns (map on_axis [1 # 100; 101 # 100; 201 # 100; 301 # 100; 401 # 100;
                        501 # 100],
           repeat (1 / count_of 6) 6,
           weighted_mean
             (map on_axis [1 # 100; 101 # 100; 201 # 100; 301 # 100;
                           401 # 100; 501 # 100])
             (repeat sixth 6))
          (mkWorld (tape world0) 1 ["RESAMPLING PARTICLES"%string]).
Proof.
  assert (Hlt : xfloat_ltb (Neff_binary64 (repeat sixth 6)) 6 = true)
    by (vm_compute; reflexivity).
  split; [exact Hlt |].
  apply (step_resamples_below_threshold Neff_binary64 two_landmarks
           systematic_resample
           (map on_axis [0; 1; 2; 3; 4; 5]) (repeat sixth 6)
           (1 # 2) 0 (1 # 50) Q_pf 6
           drift (fixed_likelihood (repeat sixth 6)) [3; 3] 100 100 world0
           (map on_axis [1 # 100; 101 # 100; 201 # 100; 301 # 100; 401 # 100;
                         501 # 100])
           world0 [(0, 5); (10, 5)] world0 (repeat sixth 6) world0).
  - reflexivity.
  - vm_compute. reflexivity.
  - reflexivity.
  - intros H. vm_compute in H. discriminate H.
  - reflexivity.
  - reflexivity.
  - exact Hlt.
  - vm_compute. reflexivity.
Defined.
